(** * go-mysql-server: the IN predicate, its hashed variant and the
      [applyHashIn] analyzer rule; [validateAutoIncrement]; [errorHandlerIter]

    A shallow embedding of
    - [sql/expression/in.go]        (InTuple, HashInTuple, newInMap, hashOf ...),
    - [sql/plan] error handler node (errorHandlerIter.Next),
    - [sql/analyzer]                (validateCreateTable, validateAutoIncrement,
                                     validateIndexes, applyHashIn),
    followed by the properties proved about them.

    Go values of type [interface{}] are modelled by [value], Go's
    [(x, error)] results by [result], a run-time panic by [Panicked].  The
    [sql.Type] interface and the expression kinds declared outside the
    embedded files are parameters (type classes [SqlType], [OpaqueExpr]). *)

From Stdlib Require Import ZArith Lia Bool.
From Stdlib.Strings Require Import Byte String.
From stdpp Require Import base option list gmap strings pretty.

Set Warnings "-register-all".
Local Open Scope Z_scope.

(* ================================================================== *)
(** * Errors, panics and results *)
(* ================================================================== *)

(** The error kinds the embedded code creates or tests for.  Message
    arguments are dropped, except the two column counts of
    [ErrInvalidOperandColumns]. *)
Inductive error : Type :=
| ErrUnsupportedInOperand
| ErrUnsupportedHashInOperand
| ErrUnsupportedHashInSubexpression
| ErrCantHashNestedExpression
| ErrInvalidType
| ErrInvalidOperandColumns (expected got : Z)
| ErrInvalidChildrenNumber
| ErrIndexOutOfBounds
| ErrInvalidAutoIncCols
| EOF                               (* io.EOF *)
| ErrOther (kind : string).         (* an error kind of a collaborator *)

Inductive panic : Type :=
| IndexOutOfRange                   (* t[i] past the end of a slice *)
| CompareNotImplemented             (* InTuple.Compare *)
| Unreachable.

Inductive result (A : Type) : Type :=
| Ok (a : A)
| Err (e : error)
| Panicked (p : panic).
Arguments Ok {A} a.
Arguments Err {A} e.
Arguments Panicked {A} p.

#[global] Instance result_ret : MRet result := fun A a => Ok a.
#[global] Instance result_bind : MBind result := fun A B f m =>
  match m with
  | Ok a => f a
  | Err e => Err e
  | Panicked p => Panicked p
  end.

(** [errors.Kind.Is] for [sql.ErrInvalidType]. *)
Definition ErrInvalidType_Is (err : error) : bool :=
  match err with ErrInvalidType => true | _ => false end.

Section MapM.
Context {A B : Type} (f : A → result B).

(** A [for] loop that collects one result per element and stops at the
    first error. *)
Fixpoint mapM (l : list A) : result (list B) :=
  match l with
  | [] => Ok []
  | x :: l' =>
      match f x with
      | Ok y =>
          match mapM l' with
          | Ok ys => Ok (y :: ys)
          | Err e => Err e
          | Panicked p => Panicked p
          end
      | Err e => Err e
      | Panicked p => Panicked p
      end
  end.
End MapM.

(* ================================================================== *)
(** * github.com/cespare/xxhash: the 64-bit xxHash (XXH64, seed 0) *)
(* ================================================================== *)

Module xxhash.
Definition u64 (z : Z) : Z := z mod 2 ^ 64.
Definition rol64 (x r : Z) : Z :=
  u64 (Z.lor (Z.shiftl x r) (Z.shiftr x (64 - r))).

Definition prime1 : Z := 0x9E3779B185EBCA87.
Definition prime2 : Z := 0xC2B2AE3D27D4EB4F.
Definition prime3 : Z := 0x165667B19E3779F9.
Definition prime4 : Z := 0x85EBCA77C2B2AE63.
Definition prime5 : Z := 0x27D4EB2F165667C5.

Definition byteZ (b : byte) : Z := Z.of_N (Byte.to_N b).

(** little-endian unsigned integer of a byte string *)
Fixpoint le_uint (bs : list byte) : Z :=
  match bs with
  | [] => 0
  | b :: bs' => byteZ b + 256 * le_uint bs'
  end.
Definition u64le (bs : list byte) : Z := le_uint (take 8 bs).
Definition u32le (bs : list byte) : Z := le_uint (take 4 bs).

Definition round (acc input : Z) : Z :=
  u64 (rol64 (u64 (acc + input * prime2)) 31 * prime1).
Definition mergeRound (acc val : Z) : Z :=
  u64 (Z.lxor acc (round 0 val) * prime1 + prime4).

(** the four accumulators over [n] whole 32-byte blocks, and the rest *)
Fixpoint blocks (n : nat) (v : Z * Z * Z * Z) (bs : list byte)
  : (Z * Z * Z * Z) * list byte :=
  match n with
  | O => (v, bs)
  | S n' =>
      let '(v1, v2, v3, v4) := v in
      blocks n' (round v1 (u64le bs), round v2 (u64le (drop 8 bs)),
                 round v3 (u64le (drop 16 bs)), round v4 (u64le (drop 24 bs)))
             (drop 32 bs)
  end.

Fixpoint tail8 (n : nat) (h : Z) (bs : list byte) : Z * list byte :=
  match n with
  | O => (h, bs)
  | S n' =>
      tail8 n'
        (u64 (rol64 (Z.lxor h (round 0 (u64le bs))) 27 * prime1 + prime4))
        (drop 8 bs)
  end.

Fixpoint tail1 (h : Z) (bs : list byte) : Z :=
  match bs with
  | [] => h
  | b :: bs' =>
      tail1 (u64 (rol64 (Z.lxor h (u64 (byteZ b * prime5))) 11 * prime1)) bs'
  end.

Definition avalanche (h : Z) : Z :=
  let h := u64 (Z.lxor h (Z.shiftr h 33) * prime2) in
  let h := u64 (Z.lxor h (Z.shiftr h 29) * prime3) in
  Z.lxor h (Z.shiftr h 32).

Definition checksum (b : list byte) : Z :=
  let n := length b in
  let '(h, b1) :=
    if decide (32 ≤ n)%nat then
      let '(v1, v2, v3, v4, rest) :=
        blocks (n / 32) (u64 (prime1 + prime2), prime2, 0, u64 (- prime1)) b in
      let h := u64 (rol64 v1 1 + rol64 v2 7 + rol64 v3 12 + rol64 v4 18) in
      (mergeRound (mergeRound (mergeRound (mergeRound h v1) v2) v3) v4, rest)
    else (prime5, b) in
  let h := u64 (h + Z.of_nat n) in
  let '(h, b2) := tail8 (length b1 / 8) h b1 in
  let '(h, b3) :=
    if decide (4 ≤ length b2)%nat
    then (u64 (rol64 (Z.lxor h (u64 (u32le b2 * prime1))) 23 * prime2 + prime3),
          drop 4 b2)
    else (h, b2) in
  avalanche (tail1 h b3).

(** The streaming digest: [New], [Write], [Sum64].  The digest of a
    stream is the checksum of everything written so far. *)
Definition Digest : Type := list byte.
Definition New : Digest := [].
Definition Write (d : Digest) (p : list byte) : Digest := d ++ p.
Definition Sum64 (d : Digest) : Z := checksum d.
End xxhash.

(** [[]byte(s)] *)
Definition bytes (s : string) : list byte := String.list_byte_of_string s.

(* ================================================================== *)
(** * Values, types and the [sql.Type] capability *)
(* ================================================================== *)

(** The carriers left open by the embedded files: Go values other than
    [nil], [bool] and [[]interface{}]; [sql.Type] implementations other
    than [sql.Null] and [sql.TupleType]; expression kinds other than the
    five this file names; plan nodes other than [plan.Filter]. *)
Class Carriers : Type := {
  scalar : Type;
  base : Type;
  opaque : Type;
  opaqueNode : Type;
}.

Section Engine.
Context `{U : Carriers}.

(** [interface{}] *)
Inductive value : Type :=
| VNil
| VBool (b : bool)
| VScalar (s : scalar)
| VSlice (vs : list value).

Definition isNil (v : value) : bool :=
  match v with VNil => true | _ => false end.

(** [sql.Type]: the null type sentinel, tuple types ([[]sql.Type]) and the
    rest. *)
Inductive type : Type :=
| Null
| Base (b : base)
| TupleType (ts : list type).

(** [t == sql.Null] *)
Definition isNull (t : type) : bool :=
  match t with Null => true | _ => false end.

(** [sql.Row] *)
Definition Row : Type := list value.

(** The Type capability consumed by the predicates:
    promotion, conversion, comparison, column count, and the Go-syntax
    rendering [%#v] of a converted value. *)
Class SqlType : Type := {
  Boolean : type;
  Promote : type → type;
  Convert : type → value → result value;
  Compare : type → value → value → result Z;
  NumColumns : type → Z;
  GoSyntax : value → string;
}.

(** The Expression capability of the kinds declared elsewhere (subqueries,
    function calls, logic operators ...): their type and their value for a
    row, given the results of their children. *)
Class OpaqueExpr : Type := {
  opaque_Type : opaque → type;
  opaque_Eval : opaque → Row → list (result value) → result value;
}.

Context `{ST : SqlType} `{OE : OpaqueExpr}.

(* ================================================================== *)
(** * Expressions *)
(* ================================================================== *)

(** Modelled from the spec: [expression.Literal], an immutable
    (value, type) pair. *)
Record literal : Type := NewLiteral { value_ : value; literal_fieldType : type }.

(** Modelled from the spec: [expression.GetField], a positional reference
    into the row being evaluated, with its declared type. *)
Record getField : Type := NewGetField { fieldIndex : nat; fieldType : type }.

(** [sql.Expression], closed over the variants the code switches on:
    [*Literal], [*GetField], [Tuple] (a slice of expressions), [*InTuple]
    (a [BinaryExpression]), [*HashInTuple] (an [InTuple] with the map
    [cmp] and the flag [hasNull]), and every other kind. *)
Inductive expr : Type :=
| Literal (l : literal)
| GetField (g : getField)
| Tuple (t : list expr)
| InTuple (Left Right : expr)
| HashInTuple (Left Right : expr) (cmp : gmap Z expr) (hasNull : bool)
| Opaque (op : opaque) (children : list expr).

(** Modelled from the spec: [Children] of the kinds declared outside
    in.go, the ordered list of sub-expressions (a literal and a field
    reference are leaves).  [InTuple.Children] is the one of in.go;
    [HashInTuple] embeds [InTuple] and inherits it. *)
Definition Children (e : expr) : list expr :=
  match e with
  | Literal _ | GetField _ => []
  | Tuple t => t
  | InTuple l r | HashInTuple l r _ _ => [l; r]
  | Opaque _ children => children
  end.

(** Modelled from the spec: [WithChildren] of the kinds declared outside
    in.go, [withChildren(list)] gives the node of the same kind over the
    new children.  [InTuple.WithChildren] is the one of in.go;
    [HashInTuple] declares none of its own, so the method promoted from
    the embedded [InTuple] answers and builds a plain [InTuple]. *)
Definition WithChildren (e : expr) (children : list expr) : result expr :=
  match e with
  | Literal _ | GetField _ =>
      match children with
      | [] => Ok e
      | _ => Err ErrInvalidChildrenNumber
      end
  | Tuple t =>
      if (length children =? length t)%nat then Ok (Tuple children)
      else Err ErrInvalidChildrenNumber
  | InTuple _ _ | HashInTuple _ _ _ _ =>
      match children with
      | [l; r] => Ok (InTuple l r)
      | _ => Err ErrInvalidChildrenNumber
      end
  | Opaque op cs =>
      if (length children =? length cs)%nat then Ok (Opaque op children)
      else Err ErrInvalidChildrenNumber
  end.

(** Modelled from the spec: [Type()] of the kinds declared outside in.go:
    a literal is a (value, type) pair, a field reference carries its
    declared type, a tuple has one column type per element.
    [InTuple.Type] is [sql.Boolean] (in.go), inherited by [HashInTuple]. *)
Fixpoint expr_Type (e : expr) : type :=
  match e with
  | Literal l => literal_fieldType l
  | GetField g => fieldType g
  | Tuple t => TupleType (map expr_Type t)
  | InTuple _ _ | HashInTuple _ _ _ _ => Boolean
  | Opaque op _ => opaque_Type op
  end.

(** Modelled from the spec: [expression.TransformUp], the bottom-up tree
    transform: the children are transformed first, in order, the node is
    rebuilt over them with [WithChildren], and the callback is applied to
    the rebuilt node. *)
Fixpoint TransformUp (f : expr → result expr) (e : expr) : result expr :=
  match e with
  | Literal _ | GetField _ => f e
  | Tuple t =>
      children ← mapM (TransformUp f) t;
      e' ← WithChildren e children;
      f e'
  | InTuple l r | HashInTuple l r _ _ =>
      l' ← TransformUp f l;
      r' ← TransformUp f r;
      e' ← WithChildren e [l'; r'];
      f e'
  | Opaque _ cs =>
      children ← mapM (TransformUp f) cs;
      e' ← WithChildren e children;
      f e'
  end.

(* ================================================================== *)
(** * sql/expression/in.go: hashing *)
(* ================================================================== *)

(** [fmt.Sprintf("%#v,", i)] as bytes *)
Definition hashInput (i : value) : list byte := bytes (GoSyntax i +:+ ",").

Definition hashOfLiteral (l : literal) (t : type) : result Z :=
  let hash := xxhash.New in
  match Convert (Promote t) (value_ l) with
  | Ok i => Ok (xxhash.Sum64 (xxhash.Write hash (hashInput i)))
  | Err _ => Err ErrInvalidType
  | Panicked p => Panicked p
  end.

(** The loop of [hashOfTuple]: [i] is the index of the head of [tup]. *)
Fixpoint hashOfTuple_loop (t : list type) (i : nat) (tup : list expr)
    (hash : xxhash.Digest) : result xxhash.Digest :=
  match tup with
  | [] => Ok hash
  | el :: rest =>
      match el with
      | Literal v =>
          match t !! i with
          | None => Panicked IndexOutOfRange
          | Some ti =>
              converted ← Convert (Promote ti) (value_ v);
              hashOfTuple_loop t (S i) rest
                (xxhash.Write hash (hashInput converted))
          end
      | _ => Err ErrCantHashNestedExpression
      end
  end.

(** [hashOfTuple] hashes a Tuple with Literal leaves. *)
Definition hashOfTuple (tup : list expr) (t : list type) : result Z :=
  hash ← hashOfTuple_loop t 0 tup xxhash.New;
  Ok (xxhash.Sum64 hash).

Definition hashOf (e : expr) (t : type) : result Z :=
  match e with
  | Tuple v =>
      match t with
      | TupleType tupType => hashOfTuple v tupType
      | _ => Err ErrInvalidType
      end
  | Literal v => hashOfLiteral v t
  | _ => Err ErrUnsupportedHashInSubexpression
  end.

(** The loop of [newInMap] over the elements of the right-hand tuple. *)
Fixpoint newInMap_loop (lType : type) (right : list expr)
    (elements : gmap Z expr) : result (gmap Z expr) :=
  match right with
  | [] => Ok elements
  | el :: rest =>
      match el with
      | Literal _ | Tuple _ =>
          match hashOf el lType with
          | Err err =>
              if ErrInvalidType_Is err then newInMap_loop lType rest elements
              else Err err
          | Panicked p => Panicked p
          | Ok key => newInMap_loop lType rest (<[key := el]> elements)
          end
      | _ => Err ErrUnsupportedHashInSubexpression
      end
  end.

(** [newInMap] hashes Literal and Tuple expressions and returns the map
    from the hash to the original expression, with the [hasNull] flag. *)
Definition newInMap (e : expr) (lType : type) : result (gmap Z expr * bool) :=
  if isNull lType then Ok (∅, true)
  else
    let hasNull := false in
    match e with
    | Tuple right' =>
        elements ← newInMap_loop lType right' ∅;
        Ok (elements, hasNull)
    | _ => Err ErrUnsupportedHashInOperand
    end.

Definition NewInTuple (left right : expr) : expr := InTuple left right.

Definition NewHashInTuple (left right : expr) : result expr :=
  '(cmp, hasNull) ← newInMap right (expr_Type left);
  Ok (HashInTuple left right cmp hasNull).

(** Modelled from the spec: a field reference addresses the row by
    position. *)
Definition GetField_Eval (g : getField) (row : Row) : result value :=
  match row !! fieldIndex g with
  | Some v => Ok v
  | None => Err ErrIndexOutOfBounds
  end.

(** The callback [normalizeLeft] hands to [TransformUp]. *)
Definition normalizeLeft_func (row : Row) (e : expr) : result expr :=
  match e with
  | GetField g =>
      v ← GetField_Eval g row;
      Ok (Literal (NewLiteral v (fieldType g)))
  | _ => Ok e
  end.

Definition normalizeLeft (e : expr) (row : Row) : result expr :=
  match e with
  | Tuple _ => TransformUp (normalizeLeft_func row) e
  | Literal _ => Ok e
  | GetField g =>
      v ← GetField_Eval g row;
      Ok (Literal (NewLiteral v (fieldType g)))
  | _ => Err ErrUnsupportedHashInOperand
  end.

(* ================================================================== *)
(** * sql/expression/in.go: evaluation *)
(* ================================================================== *)

Section EvalBody.
(** [ev] is [Eval] on the operands. *)
Variable ev : expr → Row → result value.

(** Modelled from the spec: a tuple evaluates its sub-expressions in
    order; the first error aborts. *)
Definition Tuple_Eval (t : list expr) (row : Row) : result value :=
  vals ← mapM (λ e, ev e row) t;
  Ok (VSlice vals).

(** First loop of [InTuple.Eval]: the column count of every element of
    the right-hand tuple against the one of the left operand. *)
Fixpoint InTuple_checkColumns (leftElems : Z) (right : list expr)
    : result unit :=
  match right with
  | [] => Ok ()
  | el :: rest =>
      if negb (NumColumns (expr_Type el) =? leftElems)
      then Err (ErrInvalidOperandColumns leftElems (NumColumns (expr_Type el)))
      else InTuple_checkColumns leftElems rest
  end.

(** Second loop of [InTuple.Eval], with the two statements after it. *)
Fixpoint InTuple_scan (typ : type) (left : value) (row : Row)
    (right : list expr) (rightNull : bool) : result value :=
  match right with
  | [] => if rightNull then Ok VNil else Ok (VBool false)
  | el :: rest =>
      right ← ev el row;
      if negb rightNull && isNil right
      then InTuple_scan typ left row rest true
      else
        right ← Convert typ right;
        cmp ← Compare typ left right;
        if cmp =? 0 then Ok (VBool true)
        else InTuple_scan typ left row rest rightNull
  end.

Definition InTuple_Eval (Left Right : expr) (row : Row) : result value :=
  let typ := Promote (expr_Type Left) in
  let leftElems := NumColumns typ in
  left ← ev Left row;
  if isNil left then Ok VNil
  else
    let rightNull := false in
    left ← Convert typ left;
    match Right with
    | Tuple right' =>
        _ ← InTuple_checkColumns leftElems right';
        InTuple_scan typ left row right' rightNull
    | _ => Err ErrUnsupportedInOperand
    end.

Definition HashInTuple_Eval (Left Right : expr) (cmp : gmap Z expr)
    (hasNull : bool) (row : Row) : result value :=
  if hasNull then Ok VNil
  else
    left ← normalizeLeft Left row;
    let leftElems := NumColumns (Promote (expr_Type left)) in
    leftVal ← ev left row;
    if isNil leftVal then Ok VNil
    else
      key ← hashOf left (expr_Type Left);
      match cmp !! key with
      | None => Ok (VBool false)
      | Some right' =>
          if negb (NumColumns (Promote (expr_Type right')) =? leftElems)
          then Err (ErrInvalidOperandColumns leftElems
                      (NumColumns (Promote (expr_Type right'))))
          else Ok (VBool true)
      end.

(** One layer of [Eval], by expression kind. *)
Definition EvalBody (e : expr) (row : Row) : result value :=
  match e with
  | Literal l => Ok (value_ l)
  | GetField g => GetField_Eval g row
  | Tuple t => Tuple_Eval t row
  | InTuple l r => InTuple_Eval l r row
  | HashInTuple l r cmp hasNull => HashInTuple_Eval l r cmp hasNull row
  | Opaque op children => opaque_Eval op row (map (λ c, ev c row) children)
  end.
End EvalBody.

(** Nesting depth of an expression; the entries of a [HashInTuple] map are
    never evaluated and do not count. *)
Fixpoint height (e : expr) : nat :=
  match e with
  | Literal _ | GetField _ => 0
  | Tuple t => S (foldr (λ c n, max (height c) n) 0 t)
  | InTuple l r | HashInTuple l r _ _ => S (max (height l) (height r))
  | Opaque _ children => S (foldr (λ c n, max (height c) n) 0 children)
  end%nat.

(** [Eval] unrolled [n] layers deep. *)
Fixpoint Eval_depth (n : nat) (e : expr) (row : Row) : result value :=
  match n with
  | O => Panicked Unreachable
  | S n' => EvalBody (Eval_depth n') e row
  end.

(** [Eval]: the operands of an expression are less deep than itself, so
    [S (height e)] layers reach every leaf ([Eval_unfold] below). *)
Definition Eval (e : expr) (row : Row) : result value :=
  Eval_depth (S (height e)) e row.

(** [InTuple.Compare] *)
Definition InTuple_Compare (l r : expr) (row : Row) : result Z :=
  Panicked CompareNotImplemented.

(* ================================================================== *)
(** * sql/analyzer: applyHashIn *)
(* ================================================================== *)

(** Modelled from the spec: [sql.Node], a plan tree; [plan.Filter] holds a
    boolean expression over a child plan, every other node is known by
    its children. *)
Inductive node : Type :=
| Filter (Expression : expr) (Child : node)
| OtherNode (op : opaqueNode) (children : list node).

(** Modelled from the spec: [Filter.WithExpressions], the
    expression-replacement operation of a filter. *)
Definition Filter_WithExpressions (e : expr) (child : node)
    (exprs : list expr) : result node :=
  match exprs with
  | [e'] => Ok (Filter e' child)
  | _ => Err ErrInvalidChildrenNumber
  end.

(** Modelled from the spec: [plan.TransformUpCtx] with a nil selector, the
    bottom-up transform of a plan tree. *)
Fixpoint TransformUpCtx (f : node → result node) (n : node) : result node :=
  match n with
  | Filter e child =>
      child' ← TransformUpCtx f child;
      f (Filter e child')
  | OtherNode op children =>
      children' ← mapM (TransformUpCtx f) children;
      f (OtherNode op children')
  end.

(** The left operand kinds [applyHashIn] accepts. *)
Definition hashable_left (l : expr) : bool :=
  match l with
  | Tuple _ | Literal _ | GetField _ => true
  | _ => false
  end.

(** The expression callback of [applyHashIn]. *)
Definition applyHashIn_expr (e : expr) : result expr :=
  match e with
  | InTuple l r =>
      match l with
      (* cannot HASH IN *plan.Subquery *)
      | Tuple _ | Literal _ | GetField _ => NewHashInTuple l r
      | _ => Ok e
      end
  | _ => Ok e
  end.

(** The node callback of [applyHashIn]. *)
Definition applyHashIn_node (n : node) : result node :=
  match n with
  | Filter e child =>
      e' ← TransformUp applyHashIn_expr e;
      Filter_WithExpressions e child [e']
  | _ => Ok n
  end.

Definition applyHashIn (n : node) : result node :=
  TransformUpCtx applyHashIn_node n.

(* ================================================================== *)
(** * sql/analyzer: validateAutoIncrement *)
(* ================================================================== *)

(** [sql.Column], the fields read here; [Default] is a pointer. *)
Record Column : Type := {
  Name : string;
  AutoIncrement : bool;
  PrimaryKey : bool;
  Default : option expr;
}.

Definition Schema : Type := list Column.

(** [p != nil] for a pointer *)
Definition is_Some_b {A : Type} (p : option A) : bool :=
  match p with Some _ => true | None => false end.

(** The loop of [validateAutoIncrement]; [None] is the nil error. *)
Fixpoint validateAutoIncrement_loop (schema : list Column) (seen : bool)
    : option error :=
  match schema with
  | [] => None
  | col :: rest =>
      if AutoIncrement col then
        if negb (PrimaryKey col) then
          (* AUTO_INCREMENT col must be a pk *)
          Some ErrInvalidAutoIncCols
        else if is_Some_b (Default col) then
          (* AUTO_INCREMENT col cannot have default *)
          Some ErrInvalidAutoIncCols
        else if seen then
          (* there can be at most one AUTO_INCREMENT col *)
          Some ErrInvalidAutoIncCols
        else validateAutoIncrement_loop rest true
      else validateAutoIncrement_loop rest seen
  end.

Definition validateAutoIncrement (schema : Schema) : option error :=
  validateAutoIncrement_loop schema false.

(* ================================================================== *)
(** * Vocabulary of the statements *)
(* ================================================================== *)

Definition isHashInTuple (e : expr) : bool :=
  match e with HashInTuple _ _ _ _ => true | _ => false end.

(** The candidate kinds [newInMap] hashes. *)
Definition literal_or_tuple (e : expr) : bool :=
  match e with Literal _ | Tuple _ => true | _ => false end.

(** The element evaluates to null. *)
Definition evaluates_nil (row : Row) (el : expr) : bool :=
  match Eval el row with Ok VNil => true | _ => false end.

(** An element that takes part in the scan and does not end it: it
    evaluates to a non-null value that converts and compares unequal. *)
Definition passes_unequal (typ : type) (left : value) (row : Row)
    (el : expr) : Prop :=
  ∃ v rv c, Eval el row = Ok v ∧ isNil v = false ∧ Convert typ v = Ok rv
            ∧ Compare typ left rv = Ok c ∧ c ≠ 0.

(** The comparison type converts a nil and compares it unequal to
    [left]. *)
Definition nil_unequal (typ : type) (left : value) : Prop :=
  ∃ rv c, Convert typ VNil = Ok rv ∧ Compare typ left rv = Ok c ∧ c ≠ 0.

(** The linear scan finds the candidate equal to the converted left
    value [left]. *)
Definition candidate_matches (typ : type) (left : value) (row : Row)
    (el : expr) : bool :=
  match Eval el row with
  | Ok v =>
      match Convert typ v with
      | Ok rv =>
          match Compare typ left rv with
          | Ok cmp => cmp =? 0
          | _ => false
          end
      | _ => false
      end
  | _ => false
  end.

(** What the two evaluators need of a candidate to agree on it: it has
    the column count both of them check for, it evaluates to a non-null
    value, it has a key in the index, it converts and compares, and its
    key is the key of the left value exactly when [Compare] says equal
    (same canonical encoding, no collision of the 64-bit hash). *)
Definition candidate_coherent (lType : type) (leftElems hashElems : Z)
    (left : value) (leftKey : Z) (row : Row) (el : expr) : bool :=
  (NumColumns (expr_Type el) =? leftElems)
  && (NumColumns (Promote (expr_Type el)) =? hashElems)
  && match Eval el row, hashOf el lType with
     | Ok v, Ok key =>
         negb (isNil v)
         && match Convert (Promote lType) v with
            | Ok rv =>
                match Compare (Promote lType) left rv with
                | Ok cmp => Bool.eqb (cmp =? 0) (key =? leftKey)
                | _ => false
                end
            | _ => false
            end
     | _, _ => false
     end.

(** What makes the column at index [i] an offending AUTO_INCREMENT column;
    [seen] tells that an AUTO_INCREMENT column came before the schema. *)
Definition offending (schema : list Column) (seen : bool) (i : nat)
    (col : Column) : Prop :=
  schema !! i = Some col ∧ AutoIncrement col = true ∧
  (PrimaryKey col = false ∨ Default col ≠ None ∨ seen = true ∨
   ∃ j col', j ≠ i ∧ schema !! j = Some col' ∧ AutoIncrement col' = true).

End Engine.

(* ================================================================== *)
(** * Induction principles for expressions and plan nodes *)
(* ================================================================== *)

Section Induction.
Context `{U : Carriers}.

Section ExprInd.
Variable P : expr → Prop.
Hypothesis HLiteral : ∀ l, P (Literal l).
Hypothesis HGetField : ∀ g, P (GetField g).
Hypothesis HTuple : ∀ t, Forall P t → P (Tuple t).
Hypothesis HInTuple : ∀ l r, P l → P r → P (InTuple l r).
Hypothesis HHashInTuple : ∀ l r cmp hasNull, P l → P r → P (HashInTuple l r cmp hasNull).
Hypothesis HOpaque : ∀ op children, Forall P children → P (Opaque op children).

Fixpoint expr_nested_ind (e : expr) : P e :=
  match e with
  | Literal l => HLiteral l
  | GetField g => HGetField g
  | Tuple t =>
      HTuple t ((fix all (l : list expr) : Forall P l :=
                   match l with
                   | [] => Forall_nil_2 P
                   | x :: l' => Forall_cons_2 P x l' (expr_nested_ind x) (all l')
                   end) t)
  | InTuple l r => HInTuple l r (expr_nested_ind l) (expr_nested_ind r)
  | HashInTuple l r cmp hasNull =>
      HHashInTuple l r cmp hasNull (expr_nested_ind l) (expr_nested_ind r)
  | Opaque op children =>
      HOpaque op children
        ((fix all (l : list expr) : Forall P l :=
            match l with
            | [] => Forall_nil_2 P
            | x :: l' => Forall_cons_2 P x l' (expr_nested_ind x) (all l')
            end) children)
  end.
End ExprInd.

Section NodeInd.
Variable P : node → Prop.
Hypothesis HFilter : ∀ e child, P child → P (Filter e child).
Hypothesis HOther : ∀ op children, Forall P children → P (OtherNode op children).

Fixpoint node_nested_ind (n : node) : P n :=
  match n with
  | Filter e child => HFilter e child (node_nested_ind child)
  | OtherNode op children =>
      HOther op children
        ((fix all (l : list node) : Forall P l :=
            match l with
            | [] => Forall_nil_2 P
            | x :: l' => Forall_cons_2 P x l' (node_nested_ind x) (all l')
            end) children)
  end.
End NodeInd.
End Induction.

(* ================================================================== *)
(** * sql/plan: errorHandlerIter *)
(* ================================================================== *)

Section ErrorHandler.
(** [R]: rows; [St]: the state of the child iterator; [W]: whatever the
    handler callback acts on. *)
Context {R St W : Type}.

(** [sql.RowIter]: [Next] returns a row and an error ([None] is nil) and
    advances the iterator. *)
Record RowIter : Type := { RowIter_Next : St → (R * option error) * St }.

Definition ErrorHandlerFunc : Type := error → W → W.

Record errorHandlerIter : Type := {
  childIter : RowIter;
  handlerFunc : ErrorHandlerFunc;
}.

(** [err == io.EOF] *)
Definition isEOF (err : option error) : bool :=
  match err with Some EOF => true | _ => false end.

(** [errorHandlerIter.Next] *)
Definition errorHandlerIter_Next (e : errorHandlerIter) (st : St * W)
    : (R * option error) * (St * W) :=
  let '(row, err, s') := RowIter_Next (childIter e) (fst st) in
  if isEOF err then (row, err, (s', snd st))
  else
    match err with
    | Some err' => (row, None, (s', handlerFunc e err' (snd st)))
    | None => (row, None, (s', snd st))
    end.
End ErrorHandler.
Arguments RowIter : clear implicits.
Arguments errorHandlerIter : clear implicits.

(* ================================================================== *)
(** * Shapes of expressions and plans *)
(* ================================================================== *)

Section Coverage.
Context `{U : Carriers} `{ST : !SqlType} `{OE : !OpaqueExpr}.

(** A field reference occurs in the expression (itself or a descendant
    through [Children]). *)
Fixpoint has_GetField (e : expr) : bool :=
  match e with
  | Literal _ => false
  | GetField _ => true
  | Tuple t => existsb has_GetField t
  | InTuple l r | HashInTuple l r _ _ => has_GetField l || has_GetField r
  | Opaque _ children => existsb has_GetField children
  end.

(** A membership predicate, plain or hashed, occurs in the expression. *)
Fixpoint has_In (e : expr) : bool :=
  match e with
  | Literal _ | GetField _ => false
  | Tuple t => existsb has_In t
  | InTuple _ _ | HashInTuple _ _ _ _ => true
  | Opaque _ children => existsb has_In children
  end.

(** A filter of the plan holds a membership predicate. *)
Fixpoint plan_has_In (n : node) : bool :=
  match n with
  | Filter e child => has_In e || plan_has_In child
  | OtherNode _ children => existsb plan_has_In children
  end.

(** No plain [InTuple] of the expression has a left operand of a kind
    [applyHashIn] hashes. *)
Fixpoint fully_hashed (e : expr) : bool :=
  match e with
  | Literal _ | GetField _ => true
  | Tuple t => forallb fully_hashed t
  | InTuple l r => negb (hashable_left l) && fully_hashed l && fully_hashed r
  | HashInTuple l r _ _ => fully_hashed l && fully_hashed r
  | Opaque _ children => forallb fully_hashed children
  end.

(** The positions of the row that the field references of the expression
    address, in the order [TransformUp] visits them. *)
Fixpoint field_refs (e : expr) : list nat :=
  match e with
  | Literal _ => []
  | GetField g => [fieldIndex g]
  | Tuple t => concat (map field_refs t)
  | InTuple l r | HashInTuple l r _ _ => field_refs l ++ field_refs r
  | Opaque _ children => concat (map field_refs children)
  end.

(** A Literal, or a Tuple whose elements are all Literals. *)
Definition literal_only (e : expr) : bool :=
  match e with
  | Literal _ => true
  | Tuple t => forallb (λ c, match c with Literal _ => true | _ => false end) t
  | _ => false
  end.

(** Every [HashInTuple] of the expression carries the index and the flag
    that [NewHashInTuple] builds for its own operands. *)
Fixpoint index_consistent (e : expr) : Prop :=
  match e with
  | Literal _ | GetField _ => True
  | Tuple t => foldr (λ c P, index_consistent c ∧ P) True t
  | InTuple l r => index_consistent l ∧ index_consistent r
  | HashInTuple l r cmp hasNull =>
      NewHashInTuple l r = Ok (HashInTuple l r cmp hasNull)
      ∧ index_consistent l ∧ index_consistent r
  | Opaque _ children => foldr (λ c P, index_consistent c ∧ P) True children
  end.

(** The same for every filter of a plan. *)
Fixpoint plan_consistent (n : node) : Prop :=
  match n with
  | Filter e child => index_consistent e ∧ plan_consistent child
  | OtherNode _ children => foldr (λ c P, plan_consistent c ∧ P) True children
  end.

(** The expression with every [HashInTuple] replaced by the [InTuple]
    over the same operands. *)
Fixpoint without_index (e : expr) : expr :=
  match e with
  | Literal _ | GetField _ => e
  | Tuple t => Tuple (map without_index t)
  | InTuple l r | HashInTuple l r _ _ =>
      InTuple (without_index l) (without_index r)
  | Opaque op children => Opaque op (map without_index children)
  end.

(** The bytes [hashOfTuple] writes for converted column values. *)
Definition tupleInput (converted : list value) : list byte :=
  concat (map hashInput converted).
End Coverage.

(* ================================================================== *)
(** * sql/analyzer: validateIndexes and validateCreateTable *)
(* ================================================================== *)

Section CreateTable.
Context `{U : Carriers}.
(** [strings.ToLower] *)
Variable ToLower : string → string.

(** [sql.IndexColumn], [plan.IndexDefinition] and [plan.TableSpec], the
    fields read here. *)
Record IndexColumn : Type := { IndexColumn_Name : string }.
Record IndexDefinition : Type := {
  IndexName : string;
  Columns : list IndexColumn;
}.
Record TableSpec : Type := {
  TableSpec_Schema : Schema;
  IdxDefs : list IndexDefinition;
}.

(** [plan.CreateTable], the parts read here: the field [CreateSchema]
    and what the method [TableSpec()] returns. *)
Record CreateTable : Type := {
  CreateSchema : Schema;
  CreateTable_TableSpec : TableSpec;
}.

(** The node handed to [validateCreateTable], seen through its type
    assertion to [*plan.CreateTable]. *)
Inductive analyzedNode : Type :=
| CreateTableNode (ct : CreateTable)
| AnyOtherNode (n : node).

(** The errors of [validateCreateTable]: an error of
    [validateAutoIncrement], or [sql.ErrUnknownIndexColumn] with the
    names of the column and of the index. *)
Inductive createTableError : Type :=
| AutoIncrementError (err : error)
| ErrUnknownIndexColumn (column index : string).

(** [m[k]] on a [map[string]bool]: a missing key reads as false. *)
Definition lookup_bool (m : gmap string bool) (k : string) : bool :=
  default false (m !! k).

(** First loop of [validateIndexes]: the lowercased column names. *)
Definition validateIndexes_names (schema : Schema) : gmap string bool :=
  foldl (λ lwrNames col, <[ToLower (Name col) := true]> lwrNames) ∅ schema.

(** Inner loop of [validateIndexes], over the columns of one index. *)
Fixpoint validateIndexes_columns (lwrNames : gmap string bool)
    (idx : IndexDefinition) (cols : list IndexColumn)
    : option createTableError :=
  match cols with
  | [] => None
  | col :: rest =>
      if negb (lookup_bool lwrNames (ToLower (IndexColumn_Name col)))
      then Some (ErrUnknownIndexColumn (IndexColumn_Name col) (IndexName idx))
      else validateIndexes_columns lwrNames idx rest
  end.

(** Outer loop of [validateIndexes], over the index definitions. *)
Fixpoint validateIndexes_loop (lwrNames : gmap string bool)
    (idxDefs : list IndexDefinition) : option createTableError :=
  match idxDefs with
  | [] => None
  | idx :: rest =>
      match validateIndexes_columns lwrNames idx (Columns idx) with
      | Some err => Some err
      | None => validateIndexes_loop lwrNames rest
      end
  end.

Definition validateIndexes (tableSpec : TableSpec) : option createTableError :=
  let lwrNames := validateIndexes_names (TableSpec_Schema tableSpec) in
  validateIndexes_loop lwrNames (IdxDefs tableSpec).

(** [validateCreateTable]: the node, or the error. *)
Definition validateCreateTable (n : analyzedNode)
    : analyzedNode + createTableError :=
  match n with
  | CreateTableNode ct =>
      match validateAutoIncrement (CreateSchema ct) with
      | Some err => inr (AutoIncrementError err)
      | None =>
          match validateIndexes (CreateTable_TableSpec ct) with
          | Some err => inr err
          | None => inl n
          end
      end
  | AnyOtherNode _ => inl n
  end.

(** The index column names a column of the schema, letter case apart. *)
Definition known_column (schema : Schema) (col : IndexColumn) : Prop :=
  ∃ c, c ∈ schema ∧ ToLower (Name c) = ToLower (IndexColumn_Name col).
End CreateTable.

(* ================================================================== *)
(** * sql/plan: runs of an errorHandlerIter *)
(* ================================================================== *)

Section ErrorHandlerRuns.
Context {R St W : Type}.

(** [k] calls of [Next] on an iterator, one after the other, with what
    each call returned. *)
Fixpoint RowIter_Nexts (it : RowIter R St) (k : nat) (s : St)
    : list (R * option error) * St :=
  match k with
  | O => ([], s)
  | S k' =>
      let '(out, s') := RowIter_Next it s in
      let '(outs, s'') := RowIter_Nexts it k' s' in
      (out :: outs, s'')
  end.

(** The same on an [errorHandlerIter]. *)
Fixpoint errorHandlerIter_Nexts (e : errorHandlerIter R St W) (k : nat)
    (st : St * W) : list (R * option error) * (St * W) :=
  match k with
  | O => ([], st)
  | S k' =>
      let '(out, st') := errorHandlerIter_Next e st in
      let '(outs, st'') := errorHandlerIter_Nexts e k' st' in
      (out :: outs, st'')
  end.

(** A result of the child with every error but [io.EOF] taken out. *)
Definition suppressed (out : R * option error) : R * option error :=
  (fst out, if isEOF (snd out) then snd out else None).

(** The handler applied, in order, to the errors other than [io.EOF]
    among the results of the child. *)
Definition handled (e : errorHandlerIter R St W) (w : W)
    (outs : list (R * option error)) : W :=
  foldl (λ w out,
           match snd out with
           | Some err => if isEOF (Some err) then w else handlerFunc e err w
           | None => w
           end) w outs.
End ErrorHandlerRuns.

(* ================================================================== *)
(** * A small instance of the capabilities, for concrete runs *)
(* ================================================================== *)

Module Demo.

(** Go values: [int32] and [int64]. *)
Inductive goScalar : Type := Int32 (z : Z) | Int64 (z : Z).

(** Column types: [sql.Int8] (which is [sql.Boolean]), [sql.Int32],
    [sql.Int64]. *)
Inductive sqlBase : Type := TInt8 | TInt32 | TInt64.

(** Other expressions: a scalar subquery, taken by the int64 it yields,
    and logical negation. *)
Inductive otherExpr : Type := Subquery (z : Z) | Not.

#[local] Instance demoU : Carriers :=
  {| scalar := goScalar; base := sqlBase; opaque := otherExpr;
     opaqueNode := string |}.

Definition int32 (z : Z) : value := VScalar (Int32 z : @scalar demoU).
Definition int64 (z : Z) : value := VScalar (Int64 z : @scalar demoU).
Definition Int8T : type := Base (TInt8 : @base demoU).
Definition Int32T : type := Base (TInt32 : @base demoU).
Definition Int64T : type := Base (TInt64 : @base demoU).

(** Modelled from the spec: [promote()] widens to the canonical comparison
    type, column by column for a tuple type. *)
Fixpoint demo_Promote (t : type) : type :=
  match t with
  | Null => Null
  | Base _ => Int64T
  | TupleType ts => TupleType (map demo_Promote ts)
  end.

Definition inRange (bits z : Z) : bool :=
  (- 2 ^ (bits - 1) <=? z) && (z <? 2 ^ (bits - 1)).

Definition demo_ConvertBase (b : sqlBase) (v : value)
    : result (value) :=
  match v with
  | VNil => Ok VNil
  | VBool x =>
      let z := if x then 1 else 0 in
      Ok (match b with TInt8 | TInt32 => int32 z | TInt64 => int64 z end)
  | VScalar (Int32 z) | VScalar (Int64 z) =>
      match b with
      | TInt8 => if inRange 8 z then Ok (int32 z) else Err (ErrOther "out of range")
      | TInt32 => if inRange 32 z then Ok (int32 z) else Err (ErrOther "out of range")
      | TInt64 => if inRange 64 z then Ok (int64 z) else Err (ErrOther "out of range")
      end
  | VSlice _ => Err ErrInvalidType
  end.

(** Modelled from the spec: [convert(value)]; a tuple type converts a
    slice of as many values column by column; the null type accepts only
    nil. *)
Fixpoint demo_Convert (t : type) (v : value)
    : result (value) :=
  match t with
  | Null =>
      match v with VNil => Ok VNil | _ => Err (ErrOther "value not nil") end
  | Base b => demo_ConvertBase b v
  | TupleType ts =>
      match v with
      | VSlice vs =>
          vs' ← (fix cols (ts : list (type)) (vs : list (value))
                   : result (list (value)) :=
                   match ts, vs with
                   | [], [] => Ok []
                   | t :: ts', v :: vs' =>
                       v' ← demo_Convert t v;
                       vs'' ← cols ts' vs';
                       Ok (v' :: vs'')
                   | _, _ => Err (ErrOther "invalid column number")
                   end) ts vs;
          Ok (VSlice vs')
      | _ => Err (ErrOther "not a tuple")
      end
  end.

Definition intOf (v : value) : option Z :=
  match v with
  | VScalar (Int32 z) | VScalar (Int64 z) => Some z
  | VBool b => Some (if b then 1 else 0)
  | _ => None
  end.

Definition orderZ (a b : Z) : Z :=
  match a ?= b with Lt => -1 | Eq => 0 | Gt => 1 end.

Definition demo_CompareBase (a b : value) : result Z :=
  match a, b with
  | VNil, VNil => Ok 0
  | VNil, _ => Ok 1
  | _, VNil => Ok (-1)
  | _, _ =>
      match intOf a, intOf b with
      | Some x, Some y => Ok (orderZ x y)
      | _, _ => Err ErrInvalidType
      end
  end.

(** Modelled from the spec: [compare(a, b)]; tuples compare column-wise,
    the first column that differs decides. *)
Fixpoint demo_Compare (t : type) (a b : value) : result Z :=
  match t with
  | Null => Ok 0
  | Base _ => demo_CompareBase a b
  | TupleType ts =>
      match a, b with
      | VSlice xs, VSlice ys =>
          (fix cols (ts : list (type)) (xs ys : list (value))
             : result Z :=
             match ts, xs, ys with
             | [], [], [] => Ok 0
             | t :: ts', x :: xs', y :: ys' =>
                 c ← demo_Compare t x y;
                 if c =? 0 then cols ts' xs' ys' else Ok c
             | _, _, _ => Err (ErrOther "invalid column number")
             end) ts xs ys
      | _, _ => Err (ErrOther "not a tuple")
      end
  end.

(** Modelled from the spec: the column count of a tuple is the sum of its
    elements' column counts; any other type has one column. *)
Fixpoint demo_NumColumns (t : type) : Z :=
  match t with
  | TupleType ts => foldr (λ t n, demo_NumColumns t + n) 0 ts
  | _ => 1
  end.

(** [%#v] of nil, a bool, an int32 or int64, and a slice of them. *)
Fixpoint demo_GoSyntax (v : value) : string :=
  match v with
  | VNil => "<nil>"
  | VBool b => if b then "true" else "false"
  | VScalar (Int32 z) | VScalar (Int64 z) => pretty z
  | VSlice vs =>
      "[]interface {}{" +:+
      (fix items (vs : list (value)) : string :=
         match vs with
         | [] => ""
         | [v] => demo_GoSyntax v
         | v :: vs' => demo_GoSyntax v +:+ ", " +:+ items vs'
         end) vs +:+ "}"
  end.

#[local] Instance demoST : @SqlType demoU :=
  {| Boolean := Int8T;
     Promote := demo_Promote;
     Convert := demo_Convert;
     Compare := demo_Compare;
     NumColumns := demo_NumColumns;
     GoSyntax := demo_GoSyntax |}.

#[local] Instance demoOE : @OpaqueExpr demoU :=
  {| opaque_Type := λ op, match op with Subquery _ => Int64T | Not => Int8T end;
     opaque_Eval := λ op row args,
       match op with
       | Subquery z => Ok (int64 z)
       | Not =>
           match args with
           | [Ok (VBool b)] => Ok (VBool (negb b))
           | [Ok VNil] => Ok VNil
           | [Err e] => Err e
           | [Panicked p] => Panicked p
           | _ => Err ErrInvalidType
           end
       end |}.

Definition lit (v : value) (t : type) : expr :=
  Literal (NewLiteral v t).
Definition field (i : nat) (t : type) : expr :=
  GetField (NewGetField i t).
Definition table (name : string) : node :=
  OtherNode (name : @opaqueNode demoU) [].

(** ** Inputs of the concrete runs *)

(** [x], an int64 column at position 0; [y], one at position 1. *)
Definition x : expr := field 0 Int64T.
Definition y : expr := field 1 Int64T.
Definition one : expr := lit (int64 1) Int64T.
Definition two32 : expr := lit (int32 2) Int32T.
Definition three : expr := lit (int64 3) Int64T.
Definition null : expr := lit VNil Null.
Definition subquery : expr := Opaque (Subquery 7 : @opaque demoU) [].

(** [(1, 2, 3)], the 2 written as an int32 *)
Definition in123 : list expr := [one; two32; three].
(** [(1, (2, 3))] *)
Definition in1_23 : list expr := [one; Tuple [two32; three]].
(** [(1, y)]: the second candidate is a column reference *)
Definition in1y : list expr := [one; y].

(** What [NewHashInTuple] builds, when it builds. *)
Definition built (l r : expr) : expr :=
  match NewHashInTuple l r with Ok hit => hit | _ => InTuple l r end.
Definition keyOf (e : expr) (t : type) : Z :=
  match hashOf e t with Ok key => key | _ => 0 end.

(** A child iterator that plays a script of results, then reports
    [io.EOF]; a handler that logs the errors it is given. *)
Definition scripted : RowIter Row (list (Row * option error)) :=
  {| RowIter_Next := λ s,
       match s with
       | [] => ([], Some EOF, [])
       | r :: s' => (r, s')
       end |}.
Definition logging
    : errorHandlerIter Row (list (Row * option error)) (list error) :=
  {| childIter := scripted; handlerFunc := λ err log, log ++ [err] |}.

End Demo.

(* ================================================================== *)
(** * Further inputs for concrete runs *)
(* ================================================================== *)

Module Demo2.
Import Demo.
#[local] Existing Instances demoU demoST demoOE.

(** [strings.ToLower] on ASCII text. *)
Definition lower_ascii (c : Ascii.ascii) : Ascii.ascii :=
  let n := Ascii.nat_of_ascii c in
  if (65 <=? n)%nat && (n <=? 90)%nat then Ascii.ascii_of_nat (n + 32) else c.
Fixpoint lower (s : string) : string :=
  match s with
  | EmptyString => EmptyString
  | String c s' => String (lower_ascii c) (lower s')
  end.

(** [CREATE TABLE t (Id BIGINT PRIMARY KEY AUTO_INCREMENT, Name BIGINT,
    INDEX by_name (NAME), INDEX by_age (id, age))] *)
Definition col_id : Column :=
  {| Name := "Id"; AutoIncrement := true; PrimaryKey := true;
     Default := None |}.
Definition col_name : Column :=
  {| Name := "Name"; AutoIncrement := false; PrimaryKey := false;
     Default := None |}.
Definition users : Schema := [col_id; col_name].
Definition by_name : IndexDefinition :=
  {| IndexName := "by_name"; Columns := [ {| IndexColumn_Name := "NAME" |} ] |}.
Definition by_age : IndexDefinition :=
  {| IndexName := "by_age";
     Columns := [ {| IndexColumn_Name := "id" |};
                  {| IndexColumn_Name := "age" |} ] |}.
Definition users_spec : TableSpec :=
  {| TableSpec_Schema := users; IdxDefs := [by_name; by_age] |}.

(** [(x, y)], and the candidates [((1, 2, 3))] and [((1, 2))]. *)
Definition xy : expr := Tuple [x; y].
Definition two : expr := lit (int64 2) Int64T.
Definition lit64 (z : Z) : literal := NewLiteral (int64 z) Int64T.
Definition lit32 (z : Z) : literal := NewLiteral (int32 z) Int32T.
End Demo2.

(* ------------------------------------------------------------------ *)
(*                             Properties                             *)
(* ------------------------------------------------------------------ *)

(* ================================================================== *)
(** * Results and loops *)
(* ================================================================== *)

Lemma bind_Ok {A B : Type} (m : result A) (f : A → result B) (b : B) :
  m ≫= f = Ok b → ∃ a, m = Ok a ∧ f a = Ok b.
Proof. destruct m as [a| |]; simpl; intros H; try discriminate. eauto. Qed.

Lemma mapM_Forall2 {A B : Type} (f : A → result B) (l : list A) (l' : list B) :
  mapM f l = Ok l' ↔ Forall2 (λ x y, f x = Ok y) l l'.
Proof.
  revert l'. induction l as [|x l IH]; intros l'; simpl.
  - split.
    + intros [= <-]. constructor.
    + intros H. inversion H. reflexivity.
  - split.
    + destruct (f x) as [y| |] eqn:Hx; try discriminate.
      destruct (mapM f l) as [ys| |] eqn:Hl; try discriminate.
      intros [= <-]. constructor; [exact Hx|]. by apply IH.
    + intros H. inversion H as [|? y ? ys Hx Hl]; subst.
      rewrite Hx. apply IH in Hl. by rewrite Hl.
Qed.

Lemma mapM_ext_in {A B : Type} (f g : A → result B) (l : list A) :
  (∀ x, x ∈ l → f x = g x) → mapM f l = mapM g l.
Proof.
  induction l as [|x l IH]; intros H; simpl; [done|].
  rewrite (H x) by constructor.
  rewrite IH; [done|]. intros y Hy. apply H. by constructor.
Qed.

Lemma mapM_fixed {A : Type} (f : A → result A) (l : list A) :
  Forall (λ x, f x = Ok x) l → mapM f l = Ok l.
Proof.
  induction 1 as [|x l Hx _ IH]; simpl; [done|]. by rewrite Hx, IH.
Qed.


Section TransformFacts.
Context `{U : Carriers}.

(** [TransformUp] as the generic loop over [Children] and [WithChildren]. *)
Lemma TransformUp_unfold (f : expr → result expr) (e : expr) :
  TransformUp f e =
    (children ← mapM (TransformUp f) (Children e);
     e' ← WithChildren e children;
     f e').
Proof.
  destruct e as [l|g|t|l r|l r cmp hn|op cs]; simpl; try reflexivity.
  - destruct (TransformUp f l) as [l'| |]; simpl; try reflexivity.
    destruct (TransformUp f r) as [r'| |]; reflexivity.
  - destruct (TransformUp f l) as [l'| |]; simpl; try reflexivity.
    destruct (TransformUp f r) as [r'| |]; reflexivity.
Qed.

Lemma height_elem (c : expr) (l : list expr) :
  c ∈ l → (height c ≤ foldr (λ c n, Nat.max (height c) n) 0 l)%nat.
Proof.
  induction 1 as [c l|c d l _ IH]; simpl; lia.
Qed.

Lemma height_Forall2 (l l' : list expr) :
  Forall2 (λ c c', (height c' ≤ height c)%nat) l l' →
  (foldr (λ c n, Nat.max (height c) n) 0 l'
   ≤ foldr (λ c n, Nat.max (height c) n) 0 l)%nat.
Proof. induction 1; simpl; lia. Qed.

Lemma mapM_length {A B : Type} (f : A → result B) l l' :
  mapM f l = Ok l' → length l' = length l.
Proof.
  intros H. apply mapM_Forall2 in H. symmetry. by eapply Forall2_length.
Qed.

Lemma normalizeLeft_func_height row (e e' : expr) :
  normalizeLeft_func row e = Ok e' → (height e' ≤ height e)%nat.
Proof.
  destruct e as [l|g|t|l r|l r cmp hn|op cs]; simpl;
    try (intros [= <-]; simpl; lia).
  destruct (GetField_Eval g row); simpl; intros [= <-]; simpl; lia.
Qed.

Lemma TransformUp_normalize_height row (e : expr) :
  ∀ e', TransformUp (normalizeLeft_func row) e = Ok e' →
        (height e' ≤ height e)%nat.
Proof.
  induction e as [l|g|t IH|l r IHl IHr|l r cmp hn IHl IHr|op cs IH]
    using expr_nested_ind; intros e' H.
  - by apply (normalizeLeft_func_height row (Literal l)).
  - by apply (normalizeLeft_func_height row (GetField g)).
  - simpl in H. apply bind_Ok in H as (cs' & Hcs & H).
    pose proof (mapM_length _ _ _ Hcs) as Hlen.
    rewrite Hlen, Nat.eqb_refl in H. simpl in H. injection H as <-. simpl.
    apply le_n_S, height_Forall2.
    apply mapM_Forall2 in Hcs.
    clear Hlen. induction Hcs as [|c c' l l' Hc _ IH']; [constructor|].
    inversion IH as [|? ? Hhd Htl]; subst. constructor; auto.
  - simpl in H. apply bind_Ok in H as (l' & Hl & H).
    apply bind_Ok in H as (r' & Hr & H). simpl in H. injection H as <-.
    apply IHl in Hl. apply IHr in Hr. simpl. lia.
  - simpl in H. apply bind_Ok in H as (l' & Hl & H).
    apply bind_Ok in H as (r' & Hr & H). simpl in H. injection H as <-.
    apply IHl in Hl. apply IHr in Hr. simpl. lia.
  - simpl in H. apply bind_Ok in H as (cs' & Hcs & H).
    pose proof (mapM_length _ _ _ Hcs) as Hlen.
    rewrite Hlen, Nat.eqb_refl in H. simpl in H. injection H as <-. simpl.
    apply le_n_S, height_Forall2.
    apply mapM_Forall2 in Hcs.
    clear Hlen. induction Hcs as [|c c' l l' Hc _ IH']; [constructor|].
    inversion IH as [|? ? Hhd Htl]; subst. constructor; auto.
Qed.

Lemma normalizeLeft_height (l l' : expr) row :
  normalizeLeft l row = Ok l' → (height l' ≤ height l)%nat.
Proof.
  destruct l as [v|g|t|a b|a b cmp hn|op cs]; try discriminate.
  - intros [= <-]. lia.
  - simpl. destruct (GetField_Eval g row); simpl; intros [= <-]. simpl. lia.
  - apply TransformUp_normalize_height.
Qed.
End TransformFacts.

Section EvalFacts.
Context `{U : Carriers} `{ST : !SqlType} `{OE : !OpaqueExpr}.

Lemma InTuple_scan_ext ev1 ev2 typ left row (right : list expr) :
  (∀ el, el ∈ right → ev1 el row = ev2 el row) →
  ∀ rightNull,
    InTuple_scan ev1 typ left row right rightNull
    = InTuple_scan ev2 typ left row right rightNull.
Proof.
  induction right as [|el rest IH]; intros H rn; simpl; [done|].
  rewrite (H el) by constructor.
  assert (∀ rn', InTuple_scan ev1 typ left row rest rn'
                 = InTuple_scan ev2 typ left row rest rn') as IH'.
  { apply IH. intros x Hx. apply H. by constructor. }
  destruct (ev2 el row) as [v| |]; simpl; try reflexivity.
  rewrite !IH'. reflexivity.
Qed.

(** One layer of [Eval] consults the operand evaluator only on
    expressions that are less deep. *)
Lemma EvalBody_ext ev1 ev2 (e : expr) row :
  (∀ e', (height e' < height e)%nat → ev1 e' row = ev2 e' row) →
  EvalBody ev1 e row = EvalBody ev2 e row.
Proof.
  destruct e as [l|g|t|l r|l r cmp hn|op cs]; intros H; simpl; try reflexivity.
  - unfold Tuple_Eval. erewrite mapM_ext_in; [reflexivity|].
    intros c Hc. apply H. simpl. apply height_elem in Hc. lia.
  - unfold InTuple_Eval. rewrite (H l) by (simpl; lia).
    destruct (ev2 l row) as [v| |]; simpl; try reflexivity.
    destruct (isNil v); [reflexivity|].
    destruct (Convert _ v) as [v'| |]; simpl; try reflexivity.
    destruct r as [| |right| | |]; try reflexivity.
    destruct (InTuple_checkColumns _ right); simpl; try reflexivity.
    apply InTuple_scan_ext. intros el Hel. apply H. simpl.
    apply height_elem in Hel. lia.
  - unfold HashInTuple_Eval. destruct hn; [reflexivity|].
    destruct (normalizeLeft l row) as [l'| |] eqn:Hn; simpl; try reflexivity.
    apply normalizeLeft_height in Hn.
    rewrite (H l') by (simpl; lia). reflexivity.
  - f_equal. apply map_ext_in. intros c Hc. apply H. simpl.
    apply list_elem_of_In, height_elem in Hc. lia.
Qed.

Lemma Eval_depth_enough (n m : nat) (e : expr) row :
  (height e < n)%nat → (height e < m)%nat →
  Eval_depth n e row = Eval_depth m e row.
Proof.
  revert m e. induction n as [|n IH]; intros m e Hn Hm; [lia|].
  destruct m as [|m]; [lia|]. simpl.
  apply EvalBody_ext. intros e' He'. apply IH; lia.
Qed.

(** [Eval] is total and satisfies the recursive equation of the Go
    methods: each kind evaluates its operands with [Eval] itself. *)
Lemma Eval_unfold (e : expr) row : Eval e row = EvalBody Eval e row.
Proof.
  unfold Eval at 1. simpl. apply EvalBody_ext.
  intros e' He'. unfold Eval. apply Eval_depth_enough; lia.
Qed.
End EvalFacts.

(* ================================================================== *)
(** * validateAutoIncrement *)
(* ================================================================== *)

Section ValidateAutoIncrement.
Context `{U : Carriers}.

Lemma validateAutoIncrement_loop_kind (schema : list Column) (seen : bool) e :
  validateAutoIncrement_loop schema seen = Some e → e = ErrInvalidAutoIncCols.
Proof.
  revert seen. induction schema as [|col rest IH]; intros seen; simpl.
  - discriminate.
  - destruct (AutoIncrement col); [|apply IH].
    destruct (PrimaryKey col); simpl; [|congruence].
    destruct (Default col); simpl; [congruence|].
    destruct seen; [congruence|apply IH].
Qed.

Lemma validateAutoIncrement_loop_iff (schema : list Column) (seen : bool) :
  validateAutoIncrement_loop schema seen = Some ErrInvalidAutoIncCols ↔
  ∃ i col, offending schema seen i col.
Proof.
  revert seen. induction schema as [|col rest IH]; intros seen; simpl.
  - split; [discriminate|]. intros (i & c & Hi & _). discriminate.
  - destruct (AutoIncrement col) eqn:HAI.
    + destruct (PrimaryKey col) eqn:HPK; simpl.
      2:{ split; [intros _|done]. exists 0%nat, col. split; [done|]. auto. }
      destruct (Default col) as [d|] eqn:HD; simpl.
      { split; [intros _|done]. exists 0%nat, col. split; [done|].
        split; [done|]. right. left. congruence. }
      destruct seen.
      { split; [intros _|done]. exists 0%nat, col. split; [done|]. auto. }
      rewrite IH. split.
      * intros (i & c & Hi & Hc & _). exists (S i), c.
        split; [done|]. split; [done|]. do 3 right.
        exists 0%nat, col. split; [lia|]. split; done.
      * intros (i & c & Hi & Hc & Hbad). destruct i as [|i].
        -- injection Hi as <-.
           destruct Hbad as [?|[?|[?|(j & c' & Hj & Hc' & HAI')]]];
             try congruence.
           destruct j as [|j]; [done|].
           exists j, c'. split; [done|]. split; [done|]. auto.
        -- exists i, c. split; [done|]. split; [done|]. auto.
    + rewrite IH. split.
      * intros (i & c & Hi & Hc & Hbad). exists (S i), c.
        split; [done|]. split; [done|].
        destruct Hbad as [?|[?|[?|(j & c' & Hj & Hc' & HAI')]]]; auto.
        do 3 right. exists (S j), c'. split; [lia|]. split; done.
      * intros (i & c & Hi & Hc & Hbad). destruct i as [|i].
        { injection Hi as <-. congruence. }
        exists i, c. split; [done|]. split; [done|].
        destruct Hbad as [?|[?|[?|(j & c' & Hj & Hc' & HAI')]]]; auto.
        do 3 right. destruct j as [|j].
        { injection Hc' as <-. congruence. }
        exists j, c'. split; [lia|]. split; done.
Qed.

(** C10: [validateAutoIncrement] returns [ErrInvalidAutoIncCols] if and
    only if the schema has an AUTO_INCREMENT column that is not a primary
    key, or has a non-nil default, or is not the only AUTO_INCREMENT
    column of the schema; otherwise it returns nil. *)
Theorem validateAutoIncrement_iff (schema : Schema) :
  (validateAutoIncrement schema = Some ErrInvalidAutoIncCols ↔
   ∃ i col, schema !! i = Some col ∧ AutoIncrement col = true ∧
     (PrimaryKey col = false ∨ Default col ≠ None ∨
      ∃ j col', j ≠ i ∧ schema !! j = Some col' ∧ AutoIncrement col' = true))
  ∧ (validateAutoIncrement schema ≠ Some ErrInvalidAutoIncCols →
     validateAutoIncrement schema = None).
Proof.
  unfold validateAutoIncrement. split.
  - rewrite validateAutoIncrement_loop_iff. unfold offending. split.
    + intros (i & c & Hi & Hc & Hbad). exists i, c. split; [done|].
      split; [done|]. destruct Hbad as [?|[?|[?|?]]]; auto; discriminate.
    + intros (i & c & Hi & Hc & Hbad). exists i, c. split; [done|].
      split; [done|]. destruct Hbad as [?|[?|?]]; auto.
  - destruct (validateAutoIncrement_loop schema false) as [e|] eqn:H; [|done].
    apply validateAutoIncrement_loop_kind in H as ->. done.
Qed.
End ValidateAutoIncrement.

(* ================================================================== *)
(** * errorHandlerIter *)
(* ================================================================== *)

Section ErrorHandlerFacts.
Context {R St W : Type}.
Implicit Types (e : errorHandlerIter R St W) (s : St) (w : W).

(** C9: [errorHandlerIter.Next] propagates [io.EOF] from the child; on any
    other error it calls the handler with that error and returns a nil
    error; otherwise it forwards the child's row unchanged. *)
Theorem errorHandlerIter_Next_cases e s w row err s' :
  RowIter_Next (childIter e) s = (row, err, s') →
  (err = Some EOF →
     errorHandlerIter_Next e (s, w) = (row, Some EOF, (s', w)))
  ∧ (∀ err', err = Some err' → err' ≠ EOF →
     errorHandlerIter_Next e (s, w) = (row, None, (s', handlerFunc e err' w)))
  ∧ (err = None →
     errorHandlerIter_Next e (s, w) = (row, None, (s', w))).
Proof.
  intros Hchild. unfold errorHandlerIter_Next. simpl. rewrite Hchild.
  split; [|split].
  - intros ->. reflexivity.
  - intros err' -> Hne. destruct err'; simpl; try reflexivity. done.
  - intros ->. reflexivity.
Qed.
End ErrorHandlerFacts.

(* ================================================================== *)
(** * Hash keys *)
(* ================================================================== *)

Lemma u64_range (z : Z) : 0 ≤ xxhash.u64 z < 2 ^ 64.
Proof. unfold xxhash.u64. apply Z.mod_pos_bound. lia. Qed.

Lemma lxor_u64 (a b : Z) :
  0 ≤ a < 2 ^ 64 → 0 ≤ b < 2 ^ 64 → 0 ≤ Z.lxor a b < 2 ^ 64.
Proof.
  intros Ha Hb. split; [apply Z.lxor_nonneg; lia|].
  destruct (Z.eq_dec (Z.lxor a b) 0) as [->|Hne]; [lia|].
  assert (0 < Z.lxor a b) by (pose proof (proj2 (Z.lxor_nonneg a b)); lia).
  apply Z.log2_lt_pow2; [lia|].
  eapply Z.le_lt_trans; [apply Z.log2_lxor; lia|].
  apply Z.max_lub_lt.
  - destruct (Z.eq_dec a 0) as [->|]; [reflexivity|]. apply Z.log2_lt_pow2; lia.
  - destruct (Z.eq_dec b 0) as [->|]; [reflexivity|]. apply Z.log2_lt_pow2; lia.
Qed.

(** Every digest is an unsigned 64-bit integer. *)
Lemma Sum64_range (d : xxhash.Digest) : 0 ≤ xxhash.Sum64 d < 2 ^ 64.
Proof.
  unfold xxhash.Sum64, xxhash.checksum.
  repeat match goal with
         | |- context [let '(_, _) := ?x in _] => destruct x
         end.
  unfold xxhash.avalanche. cbv zeta.
  match goal with |- _ ≤ Z.lxor ?a (Z.shiftr ?a 32) < _ =>
    assert (0 ≤ a < 2 ^ 64) as Ha by apply u64_range;
    generalize dependent a
  end.
  intros h Ha. apply lxor_u64; [exact Ha|].
  rewrite Z.shiftr_div_pow2 by lia. split.
  - apply Z.div_pos; lia.
  - apply Z.div_lt_upper_bound; lia.
Qed.

(** Known answers of XXH64 with seed 0. *)
Example checksum_empty : xxhash.checksum (bytes "") = 0xEF46DB3751D8E999.
Proof. vm_compute. reflexivity. Qed.

Example checksum_a : xxhash.checksum (bytes "a") = 0xD24EC4F1A98C6E5B.
Proof. vm_compute. reflexivity. Qed.

Example checksum_abc : xxhash.checksum (bytes "abc") = 0x44BC2CF5AD770999.
Proof. vm_compute. reflexivity. Qed.

Example checksum_long :
  xxhash.checksum (bytes "Nobody inspects the spammish repetition")
  = 0xFBCEA83C8A378BF1.
Proof. vm_compute. reflexivity. Qed.

(** Writing in pieces or at once gives the same digest. *)
Lemma Sum64_Write_app (d : xxhash.Digest) (p q : list byte) :
  xxhash.Sum64 (xxhash.Write (xxhash.Write d p) q)
  = xxhash.Sum64 (xxhash.Write d (p ++ q)).
Proof. unfold xxhash.Write. by rewrite app_assoc. Qed.

Section HashFacts.
Context `{U : Carriers} `{ST : !SqlType}.

Lemma hashOfLiteral_Ok (l : literal) (t : type) (i : value) :
  Convert (Promote t) (value_ l) = Ok i →
  hashOfLiteral l t = Ok (xxhash.Sum64 (hashInput i)).
Proof. intros H. unfold hashOfLiteral. rewrite H. reflexivity. Qed.

(** C8: two literals whose values convert to the same canonical value
    under the promoted comparison type get the same 64-bit key from
    [hashOfLiteral], whatever their original representations. *)
Theorem hashOfLiteral_canonical (t : type) (l1 l2 : literal) (i : value) :
  Convert (Promote t) (value_ l1) = Ok i →
  Convert (Promote t) (value_ l2) = Ok i →
  ∃ key, hashOfLiteral l1 t = Ok key ∧ hashOfLiteral l2 t = Ok key
         ∧ 0 ≤ key < 2 ^ 64.
Proof.
  intros H1 H2. exists (xxhash.Sum64 (hashInput i)).
  rewrite (hashOfLiteral_Ok l1 t i H1), (hashOfLiteral_Ok l2 t i H2).
  split; [reflexivity|]. split; [reflexivity|]. apply Sum64_range.
Qed.
End HashFacts.

(* ================================================================== *)
(** * InTuple.Eval and HashInTuple.Eval *)
(* ================================================================== *)

Section PredicateFacts.
Context `{U : Carriers} `{ST : !SqlType} `{OE : !OpaqueExpr}.

Lemma Eval_InTuple (l r : expr) row :
  Eval (InTuple l r) row = InTuple_Eval Eval l r row.
Proof. by rewrite Eval_unfold. Qed.

Lemma Eval_HashInTuple (l r : expr) cmp hasNull row :
  Eval (HashInTuple l r cmp hasNull) row
  = HashInTuple_Eval Eval l r cmp hasNull row.
Proof. by rewrite Eval_unfold. Qed.

Lemma Eval_Literal (l : literal) row : Eval (Literal l) row = Ok (value_ l).
Proof. reflexivity. Qed.

Lemma Eval_GetField (g : getField) row :
  Eval (GetField g) row = GetField_Eval g row.
Proof. reflexivity. Qed.

Lemma NewHashInTuple_Ok (l r hit : expr) :
  NewHashInTuple l r = Ok hit →
  ∃ cmp, hit = HashInTuple l r cmp (isNull (expr_Type l))
         ∧ (isNull (expr_Type l) = true → cmp = ∅)
         ∧ (isNull (expr_Type l) = false →
            ∃ right, r = Tuple right
                     ∧ newInMap_loop (expr_Type l) right ∅ = Ok cmp).
Proof.
  unfold NewHashInTuple, newInMap.
  destruct (isNull (expr_Type l)) eqn:Hnull; simpl.
  - intros [= <-]. exists ∅. split; [done|]. split; [done|]. discriminate.
  - destruct r as [| |right| | |]; simpl; try discriminate.
    destruct (newInMap_loop _ right ∅) as [cmp| |] eqn:Hloop; simpl;
      try discriminate.
    intros [= <-]. exists cmp. split; [done|]. split; [discriminate|].
    intros _. by exists right.
Qed.

(** C3: a [HashInTuple] built by [NewHashInTuple] evaluates to null
    exactly when the declared type of the left operand is the null type
    (then the index was built with the flag set and no entries) or the
    materialized left value of the row is null; when the probe of the
    index misses, the result is false. *)
Theorem HashInTuple_Eval_null_iff (l r hit : expr) (row : Row) :
  NewHashInTuple l r = Ok hit →
  ∃ cmp,
    hit = HashInTuple l r cmp (isNull (expr_Type l))
    ∧ (isNull (expr_Type l) = true → cmp = ∅)
    ∧ (Eval hit row = Ok VNil ↔
         isNull (expr_Type l) = true
         ∨ ∃ l', normalizeLeft l row = Ok l' ∧ Eval l' row = Ok VNil)
    ∧ (∀ l' v key,
         isNull (expr_Type l) = false →
         normalizeLeft l row = Ok l' →
         Eval l' row = Ok v → isNil v = false →
         hashOf l' (expr_Type l) = Ok key →
         cmp !! key = None →
         Eval hit row = Ok (VBool false)).
Proof.
  intros Hnew. apply NewHashInTuple_Ok in Hnew as (cmp & -> & Hempty & _).
  exists cmp. split; [done|]. split; [done|].
  rewrite Eval_HashInTuple. unfold HashInTuple_Eval. split.
  - destruct (isNull (expr_Type l)); [split; auto|].
    destruct (normalizeLeft l row) as [l'| |] eqn:Hn; simpl.
    2,3: split; [discriminate|]; intros [?|(? & ? & _)]; discriminate.
    destruct (Eval l' row) as [v| |] eqn:Hv; simpl.
    2,3: split; [discriminate|];
         intros [?|(l2 & [= <-] & Hl2)]; [discriminate|congruence].
    destruct v; simpl.
    1: split; [intros _; right; by exists l'|done].
    all: split; [|intros [?|(l2 & [= <-] & Hl2)]; [discriminate|congruence]].
    all: destruct (hashOf l' (expr_Type l)) as [key| |]; simpl;
         try discriminate.
    all: destruct (cmp !! key); try discriminate.
    all: destruct (negb _); discriminate.
  - intros l' v key -> -> Hv Hnil Hkey Hmiss. simpl.
    rewrite Hv. simpl. rewrite Hnil, Hkey. simpl. by rewrite Hmiss.
Qed.

(** Code path of C4: the second right-hand element that evaluates to
    null is not skipped.  With [rightNull] already set, the guard
    [!rightNull && right == nil] is false, so the nil is converted to the
    comparison type and compared with the left value; the outcome of
    [InTuple.Eval] is whatever those two calls make of nil. *)
Theorem InTuple_Eval_second_null (l n1 n2 : expr) (row : Row) (lv lc : value) :
  Eval l row = Ok lv → isNil lv = false →
  Convert (Promote (expr_Type l)) lv = Ok lc →
  NumColumns (expr_Type n1) = NumColumns (Promote (expr_Type l)) →
  NumColumns (expr_Type n2) = NumColumns (Promote (expr_Type l)) →
  Eval n1 row = Ok VNil → Eval n2 row = Ok VNil →
  Eval (InTuple l (Tuple [n1; n2])) row =
    (right ← Convert (Promote (expr_Type l)) VNil;
     cmp ← Compare (Promote (expr_Type l)) lc right;
     if cmp =? 0 then Ok (VBool true) else Ok VNil).
Proof.
  intros Hl Hnil Hlc Hn1 Hn2 He1 He2.
  rewrite Eval_InTuple. unfold InTuple_Eval.
  rewrite Hl. simpl. rewrite Hnil, Hlc. simpl.
  rewrite Hn1, Hn2, Z.eqb_refl. simpl.
  rewrite He1. simpl. rewrite He2. simpl. reflexivity.
Qed.

Lemma InTuple_checkColumns_Ok (leftElems : Z) (right : list expr) :
  Forall (λ el, NumColumns (expr_Type el) = leftElems) right →
  InTuple_checkColumns leftElems right = Ok ().
Proof.
  induction 1 as [|el rest Hel _ IH]; simpl; [done|].
  by rewrite Hel, Z.eqb_refl.
Qed.

Lemma InTuple_checkColumns_Err (leftElems : Z) (pre post : list expr) el :
  Forall (λ p, NumColumns (expr_Type p) = leftElems) pre →
  NumColumns (expr_Type el) ≠ leftElems →
  InTuple_checkColumns leftElems (pre ++ el :: post)
  = Err (ErrInvalidOperandColumns leftElems (NumColumns (expr_Type el))).
Proof.
  intros Hpre Hel. induction Hpre as [|p pre Hp _ IH]; simpl.
  - apply Z.eqb_neq in Hel. by rewrite Hel.
  - by rewrite Hp, Z.eqb_refl.
Qed.

Lemma InTuple_scan_first_equal typ left row (pre post : list expr) el v rc :
  Forall (passes_unequal typ left row) pre →
  Eval el row = Ok v → isNil v = false → Convert typ v = Ok rc →
  Compare typ left rc = Ok 0 →
  ∀ rightNull,
    InTuple_scan Eval typ left row (pre ++ el :: post) rightNull
    = Ok (VBool true).
Proof.
  intros Hpre Hv Hnil Hrc Hcmp.
  induction Hpre as [|p pre (pv & pc & c & Hp & Hpn & Hpc & Hc & Hne) _ IH];
    intros rn; simpl.
  - rewrite Hv. simpl. rewrite Hnil, andb_false_r, Hrc. simpl.
    by rewrite Hcmp.
  - rewrite Hp. simpl. rewrite Hpn, andb_false_r, Hpc. simpl.
    rewrite Hc. simpl. apply Z.eqb_neq in Hne. rewrite Hne. apply IH.
Qed.

(** C5, as the code has it: [InTuple.Eval] first verifies the column
    count of every right-hand element in declared order and aborts with
    the arity error of the first mismatch, before any element is
    evaluated; only then does it evaluate and compare the elements one
    at a time in declared order, returning true at the first equality,
    whatever the elements after it are. *)
Theorem InTuple_Eval_order (l : expr) (row : Row) (lv lc : value)
    (pre post : list expr) (el : expr) :
  Eval l row = Ok lv → isNil lv = false →
  Convert (Promote (expr_Type l)) lv = Ok lc →
  Forall (λ p, NumColumns (expr_Type p) = NumColumns (Promote (expr_Type l)))
    pre →
  (NumColumns (expr_Type el) ≠ NumColumns (Promote (expr_Type l)) →
   Eval (InTuple l (Tuple (pre ++ el :: post))) row
   = Err (ErrInvalidOperandColumns (NumColumns (Promote (expr_Type l)))
            (NumColumns (expr_Type el))))
  ∧ (∀ v rc,
       Forall (λ p, NumColumns (expr_Type p)
                    = NumColumns (Promote (expr_Type l))) (el :: post) →
       Forall (passes_unequal (Promote (expr_Type l)) lc row) pre →
       Eval el row = Ok v → isNil v = false →
       Convert (Promote (expr_Type l)) v = Ok rc →
       Compare (Promote (expr_Type l)) lc rc = Ok 0 →
       Eval (InTuple l (Tuple (pre ++ el :: post))) row = Ok (VBool true)).
Proof.
  intros Hl Hnil Hlc Hpre. split.
  - intros Hel. rewrite Eval_InTuple. unfold InTuple_Eval.
    rewrite Hl. simpl. rewrite Hnil, Hlc. simpl.
    by rewrite InTuple_checkColumns_Err.
  - intros v rc Hpost Hpass Hv Hvn Hrc Hcmp.
    rewrite Eval_InTuple. unfold InTuple_Eval.
    rewrite Hl. simpl. rewrite Hnil, Hlc. simpl.
    rewrite InTuple_checkColumns_Ok by (apply Forall_app; split; done).
    simpl. by eapply InTuple_scan_first_equal.
Qed.
End PredicateFacts.

(* ================================================================== *)
(** * applyHashIn *)
(* ================================================================== *)

Section ApplyHashInFacts.
Context `{U : Carriers} `{ST : !SqlType} `{OE : !OpaqueExpr}.

Lemma applyHashIn_expr_InTuple (l r : expr) :
  applyHashIn_expr (InTuple l r)
  = if hashable_left l then NewHashInTuple l r else Ok (InTuple l r).
Proof. destruct l; reflexivity. Qed.

Lemma TransformUp_InTuple (l r : expr) :
  TransformUp applyHashIn_expr (InTuple l r)
  = (l' ← TransformUp applyHashIn_expr l;
     r' ← TransformUp applyHashIn_expr r;
     if hashable_left l' then NewHashInTuple l' r' else Ok (InTuple l' r')).
Proof.
  simpl. destruct (TransformUp applyHashIn_expr l) as [l'| |]; simpl; [|done..].
  destruct (TransformUp applyHashIn_expr r) as [r'| |]; simpl; [|done..].
  apply applyHashIn_expr_InTuple.
Qed.

(** [HashInTuple] has no [WithChildren] of its own: the pass rebuilds it
    as an [InTuple] before the callback sees it. *)
Lemma TransformUp_HashInTuple (f : expr → result expr) (l r : expr) cmp hasNull :
  TransformUp f (HashInTuple l r cmp hasNull) = TransformUp f (InTuple l r).
Proof. reflexivity. Qed.

(** The callback keeps the kind of every node except [InTuple], and turns
    an [InTuple] into an [InTuple] or a [HashInTuple]: bottom-up, the kind
    of the left operand of a predicate is hashable after the pass exactly
    when it was before. *)
Lemma TransformUp_hashable_left (e e' : expr) :
  TransformUp applyHashIn_expr e = Ok e' → hashable_left e' = hashable_left e.
Proof.
  assert (∀ l r, TransformUp applyHashIn_expr (InTuple l r) = Ok e' →
                 hashable_left e' = false) as HIn.
  { intros l r H. rewrite TransformUp_InTuple in H.
    apply bind_Ok in H as (l' & _ & H). apply bind_Ok in H as (r' & _ & H).
    destruct (hashable_left l'); [|by injection H as <-].
    by apply NewHashInTuple_Ok in H as (? & -> & _). }
  destruct e as [v|g|t|l r|l r cmp hn|op cs].
  - simpl. by intros [= <-].
  - simpl. by intros [= <-].
  - simpl. intros H. apply bind_Ok in H as (cs' & Hcs & H).
    destruct (_ =? _)%nat; simpl in H; [|done]. by injection H as <-.
  - apply HIn.
  - rewrite TransformUp_HashInTuple. apply HIn.
  - simpl. intros H. apply bind_Ok in H as (cs' & Hcs & H).
    destruct (_ =? _)%nat; simpl in H; [|done]. by injection H as <-.
Qed.

(** C6: [applyHashIn] turns an [InTuple] into a [HashInTuple] only when
    the left operand is a Literal, a GetField or a Tuple.  For any other
    left operand (a subquery, say) the callback returns the predicate
    unchanged, and the pass over the predicate yields an [InTuple] over
    the transformed operands, never a [HashInTuple]. *)
Theorem applyHashIn_only_hashable_left (l r : expr) :
  hashable_left l = false →
  applyHashIn_expr (InTuple l r) = Ok (InTuple l r)
  ∧ TransformUp applyHashIn_expr (InTuple l r)
    = (l' ← TransformUp applyHashIn_expr l;
       r' ← TransformUp applyHashIn_expr r;
       Ok (InTuple l' r'))
  ∧ (∀ e', TransformUp applyHashIn_expr (InTuple l r) = Ok e' →
           isHashInTuple e' = false).
Proof.
  intros Hl.
  assert (TransformUp applyHashIn_expr (InTuple l r)
          = (l' ← TransformUp applyHashIn_expr l;
             r' ← TransformUp applyHashIn_expr r;
             Ok (InTuple l' r'))) as Heq.
  { rewrite TransformUp_InTuple.
    destruct (TransformUp applyHashIn_expr l) as [l'| |] eqn:Hl'; simpl;
      [|done..].
    apply TransformUp_hashable_left in Hl'. rewrite Hl', Hl. done. }
  split; [by rewrite applyHashIn_expr_InTuple, Hl|]. split; [exact Heq|].
  intros e'. rewrite Heq. intros H.
  apply bind_Ok in H as (l' & _ & H). apply bind_Ok in H as (r' & _ & H).
  by injection H as <-.
Qed.

(** Re-running the expression pass on its own output changes nothing. *)
Lemma TransformUp_applyHashIn_fixed (e : expr) :
  ∀ e', TransformUp applyHashIn_expr e = Ok e' →
        TransformUp applyHashIn_expr e' = Ok e'.
Proof.
  induction e as [v|g|t IH|l r IHl IHr|l r cmp hn IHl IHr|op cs IH]
    using expr_nested_ind; intros e' H.
  - simpl in H. by injection H as <-.
  - simpl in H. by injection H as <-.
  - simpl in H. apply bind_Ok in H as (cs' & Hcs & H).
    pose proof (mapM_length _ _ _ Hcs) as Hlen.
    rewrite Hlen, Nat.eqb_refl in H. simpl in H. injection H as <-.
    simpl. rewrite (mapM_fixed _ cs'); [simpl; by rewrite Nat.eqb_refl|].
    apply mapM_Forall2 in Hcs. clear Hlen.
    induction Hcs as [|c c' cs cs' Hc _ IH']; [constructor|].
    inversion IH as [|? ? Hhd Htl]; subst. constructor; auto.
  - rewrite TransformUp_InTuple in H.
    apply bind_Ok in H as (l' & Hl & H). apply bind_Ok in H as (r' & Hr & H).
    apply IHl in Hl. apply IHr in Hr.
    destruct (hashable_left l') eqn:Hh.
    + pose proof H as Hnew.
      apply NewHashInTuple_Ok in H as (cmp & -> & _).
      rewrite TransformUp_HashInTuple, TransformUp_InTuple, Hl, Hr. simpl.
      by rewrite Hh.
    + injection H as <-. rewrite TransformUp_InTuple, Hl, Hr. simpl.
      by rewrite Hh.
  - rewrite TransformUp_HashInTuple, TransformUp_InTuple in H.
    apply bind_Ok in H as (l' & Hl & H). apply bind_Ok in H as (r' & Hr & H).
    apply IHl in Hl. apply IHr in Hr.
    destruct (hashable_left l') eqn:Hh.
    + pose proof H as Hnew.
      apply NewHashInTuple_Ok in H as (cmp' & -> & _).
      rewrite TransformUp_HashInTuple, TransformUp_InTuple, Hl, Hr. simpl.
      by rewrite Hh.
    + injection H as <-. rewrite TransformUp_InTuple, Hl, Hr. simpl.
      by rewrite Hh.
  - simpl in H. apply bind_Ok in H as (cs' & Hcs & H).
    pose proof (mapM_length _ _ _ Hcs) as Hlen.
    rewrite Hlen, Nat.eqb_refl in H. simpl in H. injection H as <-.
    simpl. rewrite (mapM_fixed _ cs'); [simpl; by rewrite Nat.eqb_refl|].
    apply mapM_Forall2 in Hcs. clear Hlen.
    induction Hcs as [|c c' cs cs' Hc _ IH']; [constructor|].
    inversion IH as [|? ? Hhd Htl]; subst. constructor; auto.
Qed.

(** The pass on a filter: the child plan first, then the expression. *)
Lemma applyHashIn_Filter (e : expr) (child : node) :
  applyHashIn (Filter e child)
  = (child' ← applyHashIn child;
     e' ← TransformUp applyHashIn_expr e;
     Ok (Filter e' child')).
Proof.
  unfold applyHashIn. simpl.
  destruct (TransformUpCtx applyHashIn_node child); simpl; [|done..].
  destruct (TransformUp applyHashIn_expr e); reflexivity.
Qed.

Lemma applyHashIn_fixed (n : node) :
  ∀ n', applyHashIn n = Ok n' → applyHashIn n' = Ok n'.
Proof.
  unfold applyHashIn.
  induction n as [e child IH|op cs IH] using node_nested_ind; intros n' H.
  - simpl in H. apply bind_Ok in H as (child' & Hc & H).
    apply bind_Ok in H as (e' & He & H). simpl in H. injection H as <-.
    simpl. rewrite (IH _ Hc). simpl.
    by rewrite (TransformUp_applyHashIn_fixed _ _ He).
  - simpl in H. apply bind_Ok in H as (cs' & Hcs & H). simpl in H.
    injection H as <-. simpl. rewrite (mapM_fixed _ cs'); [done|].
    apply mapM_Forall2 in Hcs.
    induction Hcs as [|c c' cs cs' Hc _ IH']; [constructor|].
    inversion IH as [|? ? Hhd Htl]; subst. constructor; auto.
Qed.

(** C7: applying [applyHashIn] twice to a plan gives what applying it once
    gives.  The callback leaves a [HashInTuple] node as it is (its type
    switch has no case for it), and the pass maps each of its own outputs
    to itself. *)
Theorem applyHashIn_idempotent (n : node) :
  (n' ← applyHashIn n; applyHashIn n') = applyHashIn n
  ∧ (∀ l r cmp hasNull,
       applyHashIn_expr (HashInTuple l r cmp hasNull)
       = Ok (HashInTuple l r cmp hasNull))
  ∧ (∀ e : expr,
       (e' ← TransformUp applyHashIn_expr e; TransformUp applyHashIn_expr e')
       = TransformUp applyHashIn_expr e).
Proof.
  split; [|split].
  - destruct (applyHashIn n) as [n'| |] eqn:H; simpl; [|done..].
    exact (applyHashIn_fixed n n' H).
  - reflexivity.
  - intros e. destruct (TransformUp applyHashIn_expr e) as [e'| |] eqn:H;
      simpl; [|done..].
    exact (TransformUp_applyHashIn_fixed e e' H).
Qed.

(** C1, as the code has it: when the index cannot be built for an [InTuple]
    whose left operand is a Literal, a GetField or a Tuple, the callback
    returns the build error, and [applyHashIn] on a filter over that
    predicate returns this error to its caller instead of a plan. *)
Theorem applyHashIn_build_failure (l r l' r' : expr) (child child' : node)
    (err : error) :
  TransformUp applyHashIn_expr l = Ok l' →
  TransformUp applyHashIn_expr r = Ok r' →
  TransformUpCtx applyHashIn_node child = Ok child' →
  hashable_left l' = true →
  NewHashInTuple l' r' = Err err →
  applyHashIn_expr (InTuple l' r') = Err err
  ∧ applyHashIn (Filter (InTuple l r) child) = Err err.
Proof.
  intros Hl Hr Hc Hh Hnew. split.
  - by rewrite applyHashIn_expr_InTuple, Hh.
  - rewrite applyHashIn_Filter. unfold applyHashIn. rewrite Hc.
    rewrite TransformUp_InTuple, Hl, Hr. simpl. by rewrite Hh, Hnew.
Qed.
End ApplyHashInFacts.

(* ================================================================== *)
(** * Materializing the left operand *)
(* ================================================================== *)

Section Materialize.
Context `{U : Carriers} `{ST : !SqlType} `{OE : !OpaqueExpr}.

Lemma Eval_Tuple (t : list expr) row :
  Eval (Tuple t) row = Tuple_Eval Eval t row.
Proof. by rewrite Eval_unfold. Qed.

(** A tuple with a key has Literal leaves only. *)
Lemma hashOfTuple_loop_literals (t : list type) (tup : list expr) :
  ∀ i hash d, hashOfTuple_loop t i tup hash = Ok d →
              Forall (λ e, ∃ l, e = Literal l) tup.
Proof.
  induction tup as [|el rest IH]; intros i hash d H; [constructor|].
  simpl in H. destruct el as [l| | | | |]; try discriminate.
  destruct (t !! i) as [ti|]; [|discriminate].
  apply bind_Ok in H as (c & _ & H). constructor; [by exists l|].
  by eapply IH.
Qed.

(** [normalizeLeft_func] bottom-up yields a Literal only from a Literal
    or from a field reference, and then one of the same value. *)
Lemma TransformUp_normalize_Literal row (e : expr) (l : literal) :
  TransformUp (normalizeLeft_func row) e = Ok (Literal l) →
  Eval e row = Ok (value_ l).
Proof.
  destruct e as [l0|g|t|a b|a b cmp hn|op cs]; simpl.
  - by intros [= ->].
  - rewrite Eval_GetField. destruct (GetField_Eval g row) as [v| |]; simpl;
      try discriminate. by intros [= <-].
  - intros H. apply bind_Ok in H as (cs' & _ & H).
    destruct (_ =? _)%nat; by simpl in H.
  - intros H. apply bind_Ok in H as (a' & _ & H).
    apply bind_Ok in H as (b' & _ & H). by simpl in H.
  - intros H. apply bind_Ok in H as (a' & _ & H).
    apply bind_Ok in H as (b' & _ & H). by simpl in H.
  - intros H. apply bind_Ok in H as (cs' & _ & H).
    destruct (_ =? _)%nat; by simpl in H.
Qed.

(** Materializing a left operand that then has a key does not change its
    value for the row. *)
Lemma normalizeLeft_Eval (l l' : expr) (t : type) (key : Z) row :
  normalizeLeft l row = Ok l' → hashOf l' t = Ok key →
  Eval l' row = Eval l row.
Proof.
  destruct l as [v|g|es|a b|a b cmp hn|op cs]; try discriminate.
  - by intros [= <-].
  - simpl. rewrite Eval_GetField.
    destruct (GetField_Eval g row) as [v| |]; simpl; try discriminate.
    by intros [= <-].
  - simpl. intros H Hkey. apply bind_Ok in H as (cs & Hcs & H).
    pose proof (mapM_length _ _ _ Hcs) as Hlen.
    rewrite Hlen, Nat.eqb_refl in H. simpl in H. injection H as <-.
    simpl in Hkey. destruct t as [| |ts]; try discriminate.
    unfold hashOfTuple in Hkey. apply bind_Ok in Hkey as (d & Hd & _).
    apply hashOfTuple_loop_literals in Hd.
    rewrite !Eval_Tuple. unfold Tuple_Eval. f_equal.
    apply mapM_Forall2 in Hcs. clear Hlen.
    induction Hcs as [|e c es cs He _ IH]; [done|].
    inversion Hd as [|? ? (lit & ->) Hd']; subst. simpl.
    rewrite (TransformUp_normalize_Literal _ _ _ He). simpl.
    by rewrite (IH Hd').
Qed.
End Materialize.

(* ================================================================== *)
(** * HashInTuple.Eval against InTuple.Eval *)
(* ================================================================== *)

Section Agreement.
Context `{U : Carriers} `{ST : !SqlType} `{OE : !OpaqueExpr}.

(** The index after the loop of [newInMap]: a key is bound to one of the
    elements that hash to it, or, when none does, to what it was bound to
    before. *)
Lemma newInMap_loop_lookup (lType : type) (right : list expr) :
  ∀ (elements cmp : gmap Z expr) (key : Z),
    newInMap_loop lType right elements = Ok cmp →
    (cmp !! key = elements !! key
     ∧ Forall (λ el, hashOf el lType ≠ Ok key) right)
    ∨ (∃ el, el ∈ right ∧ hashOf el lType = Ok key ∧ cmp !! key = Some el).
Proof.
  induction right as [|el rest IH]; intros elements cmp key H; simpl in H.
  - injection H as <-. left. split; [done|constructor].
  - assert (∀ m, newInMap_loop lType rest m = Ok cmp →
                 (hashOf el lType ≠ Ok key ∧ m !! key = elements !! key)
                 ∨ (hashOf el lType = Ok key ∧ m !! key = Some el) →
                 (cmp !! key = elements !! key
                  ∧ Forall (λ el, hashOf el lType ≠ Ok key) (el :: rest))
                 ∨ (∃ el', el' ∈ el :: rest ∧ hashOf el' lType = Ok key
                           ∧ cmp !! key = Some el')) as Hstep.
    { intros m Hm Hel.
      destruct (IH m cmp key Hm) as [[Hsame Hnone]|(el' & Hin & Hk & Hc)].
      - destruct Hel as [[Hne Hm']|[Heq Hm']].
        + left. split; [congruence|by constructor].
        + right. exists el. split; [constructor|]. split; [done|congruence].
      - right. exists el'. split; [by constructor|done]. }
    destruct (hashOf el lType) as [k|err|p] eqn:Hk.
    + assert (newInMap_loop lType rest (<[k:=el]> elements) = Ok cmp) as Hm
        by (destruct el; try discriminate; exact H).
      apply (Hstep _ Hm). destruct (decide (k = key)) as [->|Hne].
      * right. split; [done|]. apply lookup_insert_eq.
      * left. split; [congruence|]. by apply lookup_insert_ne.
    + assert (newInMap_loop lType rest elements = Ok cmp) as Hm.
      { destruct el; try discriminate;
          destruct (ErrInvalidType_Is err); try discriminate; exact H. }
      apply (Hstep _ Hm). left. split; [discriminate|done].
    + destruct el; discriminate.
Qed.

Lemma candidate_coherent_inv lType leftElems hashElems left leftKey row el :
  candidate_coherent lType leftElems hashElems left leftKey row el = true →
  NumColumns (expr_Type el) = leftElems
  ∧ NumColumns (Promote (expr_Type el)) = hashElems
  ∧ ∃ v key rv cmp,
      Eval el row = Ok v ∧ isNil v = false ∧ hashOf el lType = Ok key
      ∧ Convert (Promote lType) v = Ok rv
      ∧ Compare (Promote lType) left rv = Ok cmp
      ∧ ((cmp =? 0) = (key =? leftKey)).
Proof.
  unfold candidate_coherent. intros H.
  apply andb_prop in H as [H H3]. apply andb_prop in H as [H1 H2].
  apply Z.eqb_eq in H1. apply Z.eqb_eq in H2. split; [done|]. split; [done|].
  destruct (Eval el row) as [v| |] eqn:Ev; try discriminate.
  destruct (hashOf el lType) as [key| |] eqn:Ek; try discriminate.
  apply andb_prop in H3 as [Hv H3]. apply negb_true_iff in Hv.
  destruct (Convert (Promote lType) v) as [rv| |] eqn:Erv; try discriminate.
  destruct (Compare (Promote lType) left rv) as [cmp| |] eqn:Ecmp;
    try discriminate.
  apply eqb_prop in H3. exists v, key, rv, cmp. repeat split; done.
Qed.

(** With coherent, non-null candidates the scan is the search for a
    candidate equal to the left value. *)
Lemma InTuple_scan_coherent lType leftElems hashElems left leftKey row
    (right : list expr) :
  Forall (λ el, candidate_coherent lType leftElems hashElems left leftKey
                  row el = true) right →
  InTuple_scan Eval (Promote lType) left row right false
  = Ok (VBool (existsb (candidate_matches (Promote lType) left row) right)).
Proof.
  induction 1 as [|el rest Hel _ IH]; simpl; [done|].
  apply candidate_coherent_inv in Hel
    as (_ & _ & v & key & rc & cmp & Hv & Hnil & _ & Hrc & Hcmp & _).
  unfold candidate_matches at 1. rewrite Hv. simpl.
  rewrite Hnil, Hrc. simpl. rewrite Hcmp. simpl.
  destruct (cmp =? 0); [done|exact IH].
Qed.

(** C2, as the code has it: for a [HashInTuple] built by [NewHashInTuple]
    over a left operand whose type is not the null type and whose value
    for the row is not null, and a right-hand tuple of candidates none of
    which evaluates to null, all of which have the column count of the
    left operand, and whose keys coincide with the key of the left value
    exactly where [Compare] reports equality, [HashInTuple.Eval] and
    [InTuple.Eval] return the same result: true when a candidate matches
    the left value, false when none does. *)
Theorem HashInTuple_Eval_agrees (l hit l' : expr) (right : list expr)
    (row : Row) (lv left : value) (leftKey : Z) :
  NewHashInTuple l (Tuple right) = Ok hit →
  isNull (expr_Type l) = false →
  normalizeLeft l row = Ok l' →
  Eval l row = Ok lv → isNil lv = false →
  Convert (Promote (expr_Type l)) lv = Ok left →
  hashOf l' (expr_Type l) = Ok leftKey →
  Forall (λ el, candidate_coherent (expr_Type l)
                  (NumColumns (Promote (expr_Type l)))
                  (NumColumns (Promote (expr_Type l')))
                  left leftKey row el = true) right →
  Eval hit row = Eval (InTuple l (Tuple right)) row
  ∧ Eval hit row
    = Ok (VBool (existsb
                   (candidate_matches (Promote (expr_Type l)) left row)
                   right)).
Proof.
  intros Hnew Hnull Hnorm Hlv Hnil Hleft Hkey Hcoh.
  assert (Eval l' row = Ok lv) as Hlv'
    by (by rewrite (normalizeLeft_Eval _ _ _ _ _ Hnorm Hkey)).
  assert (Eval (InTuple l (Tuple right)) row
          = Ok (VBool (existsb
                         (candidate_matches (Promote (expr_Type l)) left row)
                         right))) as HIn.
  { rewrite Eval_InTuple. unfold InTuple_Eval. rewrite Hlv. simpl.
    rewrite Hnil, Hleft. simpl.
    rewrite InTuple_checkColumns_Ok.
    - simpl. by eapply InTuple_scan_coherent.
    - eapply Forall_impl; [exact Hcoh|]. intros el Hel.
      by apply candidate_coherent_inv in Hel as (? & _). }
  rewrite HIn.
  enough (Eval hit row
          = Ok (VBool (existsb
                         (candidate_matches (Promote (expr_Type l)) left row)
                         right))) by (by split).
  apply NewHashInTuple_Ok in Hnew as (cmp & -> & _ & Hloop).
  destruct (Hloop Hnull) as (right' & [= <-] & Hmap). clear Hloop.
  rewrite Eval_HashInTuple. unfold HashInTuple_Eval.
  rewrite Hnull, Hnorm. simpl. rewrite Hlv'. simpl. rewrite Hnil, Hkey. simpl.
  destruct (newInMap_loop_lookup _ _ _ _ leftKey Hmap)
    as [[Hmiss Hnone]|(el & Hin & Hk & Hhit)].
  - rewrite Hmiss, lookup_empty. do 2 f_equal. symmetry.
    apply not_true_is_false. intros Hex.
    apply existsb_exists in Hex as (el & Hin & Hm).
    apply list_elem_of_In in Hin.
    rewrite Forall_forall in Hcoh, Hnone.
    specialize (Hcoh el Hin). specialize (Hnone el Hin).
    apply candidate_coherent_inv in Hcoh
      as (_ & _ & v & key & rc & c & Hv & _ & Hk & Hrc & Hc & Hiff).
    unfold candidate_matches in Hm. rewrite Hv, Hrc, Hc in Hm.
    rewrite Hm in Hiff. symmetry in Hiff. apply Z.eqb_eq in Hiff.
    apply Hnone. congruence.
  - rewrite Hhit.
    rewrite Forall_forall in Hcoh. pose proof (Hcoh el Hin) as Hel.
    apply candidate_coherent_inv in Hel
      as (_ & Hcols & v & key & rc & c & Hv & _ & Hk' & Hrc & Hc & Hiff).
    rewrite Hcols, Z.eqb_refl. simpl. do 2 f_equal. symmetry.
    apply existsb_exists. exists el. split; [by apply list_elem_of_In|].
    unfold candidate_matches. rewrite Hv, Hrc, Hc, Hiff.
    apply Z.eqb_eq. congruence.
Qed.
End Agreement.

(* ================================================================== *)
(** * Further properties of the predicates *)
(* ================================================================== *)

Section More.
Context `{U : Carriers} `{ST : !SqlType} `{OE : !OpaqueExpr}.

Lemma evaluates_nil_true (row : Row) (el : expr) :
  evaluates_nil row el = true → Eval el row = Ok VNil.
Proof.
  unfold evaluates_nil. destruct (Eval el row) as [[]| |]; done.
Qed.

Lemma passes_unequal_not_nil typ left row (el : expr) :
  passes_unequal typ left row el → evaluates_nil row el = false.
Proof.
  intros (v & rv & c & Hv & Hnil & _). unfold evaluates_nil. rewrite Hv.
  by destruct v.
Qed.

Lemma InTuple_scan_no_match typ left row (right : list expr) :
  Forall (λ el, evaluates_nil row el = true
                ∨ passes_unequal typ left row el) right →
  ∀ rightNull : bool,
    nil_unequal typ left
    ∨ (length (filter (λ el, evaluates_nil row el = true) right)
       ≤ if rightNull then 0 else 1)%nat →
    InTuple_scan Eval typ left row right rightNull
    = Ok (if rightNull || existsb (evaluates_nil row) right
          then VNil else VBool false).
Proof.
  induction 1 as [|el rest Hel _ IH]; intros rn Hnils; simpl.
  - by destruct rn.
  - destruct Hel as [Hnil|Hpass].
    + rewrite (evaluates_nil_true _ _ Hnil), Hnil. simpl.
      rewrite filter_cons_True in Hnils by done. simpl in Hnils.
      destruct rn; simpl.
      * destruct Hnils as [Hne|Hle]; [|lia].
        pose proof Hne as (rv & c & Hrv & Hc & Hc0).
        rewrite Hrv. simpl. rewrite Hc. simpl.
        apply Z.eqb_neq in Hc0. rewrite Hc0.
        rewrite IH by (by left). reflexivity.
      * rewrite IH; [reflexivity|].
        destruct Hnils as [Hne|Hle]; [by left|right; lia].
    + pose proof (passes_unequal_not_nil _ _ _ _ Hpass) as Hnn.
      destruct Hpass as (v & rv & c & Hv & Hvn & Hrv & Hc & Hc0).
      rewrite Hv. simpl. rewrite Hvn, andb_false_r, Hrv. simpl.
      rewrite Hc. simpl. apply Z.eqb_neq in Hc0. rewrite Hc0, Hnn. simpl.
      apply IH. rewrite filter_cons_False in Hnils by congruence. exact Hnils.
Qed.

(** X1 (second half of C4, where it holds): when every right-hand element
    has the arity of the left operand and either evaluates to null or
    compares unequal to the left value, and at most one element is null
    (or the comparison type converts a nil and compares it unequal),
    [InTuple.Eval] returns null if a right element was null, else
    false. *)
Theorem InTuple_Eval_no_match (l : expr) (row : Row) (lv lc : value)
    (right : list expr) :
  Eval l row = Ok lv → isNil lv = false →
  Convert (Promote (expr_Type l)) lv = Ok lc →
  Forall (λ el, NumColumns (expr_Type el)
                = NumColumns (Promote (expr_Type l))) right →
  Forall (λ el, evaluates_nil row el = true
                ∨ passes_unequal (Promote (expr_Type l)) lc row el) right →
  nil_unequal (Promote (expr_Type l)) lc
  ∨ (length (filter (λ el, evaluates_nil row el = true) right) ≤ 1)%nat →
  Eval (InTuple l (Tuple right)) row
  = Ok (if existsb (evaluates_nil row) right then VNil else VBool false).
Proof.
  intros Hl Hnil Hlc Hcols Hels Hnils.
  rewrite Eval_InTuple. unfold InTuple_Eval. rewrite Hl. simpl.
  rewrite Hnil, Hlc. simpl. rewrite InTuple_checkColumns_Ok by done. simpl.
  by rewrite (InTuple_scan_no_match _ _ _ _ Hels false Hnils).
Qed.


Lemma newInMap_loop_aborts (lType : type) (right : list expr) :
  Exists (λ el, literal_or_tuple el = false) right →
  ∀ elements cmp, newInMap_loop lType right elements ≠ Ok cmp.
Proof.
  induction 1 as [el rest Hel|el rest _ IH]; intros elements cmp; simpl.
  - destruct el; try discriminate Hel; discriminate.
  - destruct el; try discriminate;
      (destruct (hashOf _ lType) as [key|err|p]; try discriminate;
       [apply IH|destruct (ErrInvalidType_Is err); [apply IH|discriminate]]).
Qed.

(** X3: a candidate that is neither a Literal nor a Tuple (a column
    reference, a subquery, a function call) aborts the construction of
    the index as a whole: [newInMap] returns no map. *)
Theorem newInMap_aborts (lType : type) (right : list expr) (el : expr) :
  isNull lType = false → el ∈ right → literal_or_tuple el = false →
  ∀ built, newInMap (Tuple right) lType ≠ Ok built.
Proof.
  intros Hnull Hin Hel built. unfold newInMap. rewrite Hnull.
  destruct (newInMap_loop lType right ∅) as [cmp| |] eqn:Hloop; try discriminate.
  exfalso. eapply newInMap_loop_aborts; [|exact Hloop].
  apply Exists_exists. by exists el.
Qed.
End More.

(* ================================================================== *)
(** * Results of the traversals *)
(* ================================================================== *)

Lemma mapM_Err {A B : Type} (f : A → result B) (l : list A) (err : error) :
  mapM f l = Err err → ∃ x, x ∈ l ∧ f x = Err err.
Proof.
  induction l as [|x l IH]; simpl; [discriminate|].
  destruct (f x) as [y|e|p] eqn:Hx.
  - destruct (mapM f l) as [ys|e|p]; try discriminate.
    intros [= ->]. destruct IH as (x' & Hin & Hx'); [done|].
    exists x'. split; [by constructor|done].
  - intros [= ->]. exists x. split; [constructor|done].
  - discriminate.
Qed.

Lemma mapM_Panicked {A B : Type} (f : A → result B) (l : list A) (p : panic) :
  mapM f l = Panicked p → ∃ x, x ∈ l ∧ f x = Panicked p.
Proof.
  induction l as [|x l IH]; simpl; [discriminate|].
  destruct (f x) as [y|e|q] eqn:Hx.
  - destruct (mapM f l) as [ys|e|q]; try discriminate.
    intros [= ->]. destruct IH as (x' & Hin & Hx'); [done|].
    exists x'. split; [by constructor|done].
  - discriminate.
  - intros [= ->]. exists x. split; [constructor|done].
Qed.

Section PassFacts.
Context `{U : Carriers} `{ST : !SqlType} `{OE : !OpaqueExpr}.

Lemma existsb_false_Forall {A : Type} (f : A → bool) (l : list A) :
  existsb f l = false → Forall (λ x, f x = false) l.
Proof.
  induction l as [|x l IH]; simpl; [constructor|].
  intros H. apply orb_false_elim in H as [Hx Hl]. constructor; auto.
Qed.

Lemma TransformUp_Tuple (f : expr → result expr) (t : list expr) :
  TransformUp f (Tuple t) = (cs ← mapM (TransformUp f) t; f (Tuple cs)).
Proof.
  simpl. destruct (mapM (TransformUp f) t) as [cs| |] eqn:H; simpl; [|done..].
  by rewrite (mapM_length _ _ _ H), Nat.eqb_refl.
Qed.

Lemma TransformUp_Opaque (f : expr → result expr) op (children : list expr) :
  TransformUp f (Opaque op children)
  = (cs ← mapM (TransformUp f) children; f (Opaque op cs)).
Proof.
  simpl. destruct (mapM (TransformUp f) children) as [cs| |] eqn:H; simpl;
    [|done..].
  by rewrite (mapM_length _ _ _ H), Nat.eqb_refl.
Qed.

Lemma TransformUp_applyHashIn_frame (e : expr) :
  has_In e = false → TransformUp applyHashIn_expr e = Ok e.
Proof.
  induction e as [v|g|t IH|l r IHl IHr|l r cmp hn IHl IHr|op cs IH]
    using expr_nested_ind; intros H; try reflexivity; try discriminate.
  - rewrite TransformUp_Tuple, (mapM_fixed _ t); [done|].
    simpl in H. apply existsb_false_Forall in H.
    rewrite Forall_forall in IH, H. apply Forall_forall. auto.
  - rewrite TransformUp_Opaque, (mapM_fixed _ cs); [done|].
    simpl in H. apply existsb_false_Forall in H.
    rewrite Forall_forall in IH, H. apply Forall_forall. auto.
Qed.

(** X11: the pass leaves alone every plan none of whose filters holds a
    membership predicate; in particular every plan without a filter. *)
Theorem applyHashIn_frame (n : node) :
  plan_has_In n = false → applyHashIn n = Ok n.
Proof.
  induction n as [e child IH|op cs IH] using node_nested_ind; intros H.
  - simpl in H. apply orb_false_elim in H as [He Hc].
    rewrite applyHashIn_Filter, (IH Hc). simpl.
    by rewrite (TransformUp_applyHashIn_frame e He).
  - simpl in H. apply existsb_false_Forall in H.
    unfold applyHashIn. simpl.
    rewrite (mapM_fixed _ cs); [done|].
    rewrite Forall_forall in IH. rewrite Forall_forall in H.
    apply Forall_forall. intros c Hc. apply (IH c Hc). by apply H.
Qed.

(** X12: the rewrite keeps the type of every expression. *)
Theorem applyHashIn_expr_Type (e : expr) :
  ∀ e', TransformUp applyHashIn_expr e = Ok e' → expr_Type e' = expr_Type e.
Proof.
  assert (∀ l r e', TransformUp applyHashIn_expr (InTuple l r) = Ok e' →
                    expr_Type e' = Boolean) as HIn.
  { intros l r e' H. rewrite TransformUp_InTuple in H.
    apply bind_Ok in H as (l' & _ & H). apply bind_Ok in H as (r' & _ & H).
    destruct (hashable_left l'); [|by injection H as <-].
    by apply NewHashInTuple_Ok in H as (? & -> & _). }
  induction e as [v|g|t IH|l r IHl IHr|l r cmp hn IHl IHr|op cs IH]
    using expr_nested_ind; intros e' H.
  - simpl in H. by injection H as <-.
  - simpl in H. by injection H as <-.
  - rewrite TransformUp_Tuple in H. apply bind_Ok in H as (cs & Hcs & H).
    simpl in H. injection H as <-. simpl. f_equal.
    apply mapM_Forall2 in Hcs.
    induction Hcs as [|c c' t cs Hc _ IH']; [done|].
    inversion IH as [|? ? Hhd Htl]; subst. simpl.
    by rewrite (Hhd _ Hc), (IH' Htl).
  - by apply HIn in H.
  - rewrite TransformUp_HashInTuple in H. by apply HIn in H.
  - rewrite TransformUp_Opaque in H. apply bind_Ok in H as (cs' & _ & H).
    simpl in H. by injection H as <-.
Qed.


End PassFacts.

(* ================================================================== *)
(** * What applyHashIn returns *)
(* ================================================================== *)

Section OutputFacts.
Context `{U : Carriers} `{ST : !SqlType} `{OE : !OpaqueExpr}.

Lemma index_consistent_children {A : Type} (P : A → Prop) (cs : list A) :
  Forall P cs → foldr (λ c Q, P c ∧ Q) True cs.
Proof. induction 1; simpl; auto. Qed.

Lemma TransformUp_applyHashIn_output (e : expr) :
  ∀ e', TransformUp applyHashIn_expr e = Ok e' →
        index_consistent e' ∧ fully_hashed e' = true.
Proof.
  assert (∀ l r,
    (∀ e', TransformUp applyHashIn_expr l = Ok e' →
           index_consistent e' ∧ fully_hashed e' = true) →
    (∀ e', TransformUp applyHashIn_expr r = Ok e' →
           index_consistent e' ∧ fully_hashed e' = true) →
    ∀ e', TransformUp applyHashIn_expr (InTuple l r) = Ok e' →
          index_consistent e' ∧ fully_hashed e' = true) as HIn.
  { intros l r IHl IHr e' H. rewrite TransformUp_InTuple in H.
    apply bind_Ok in H as (l' & Hl & H). apply bind_Ok in H as (r' & Hr & H).
    destruct (IHl _ Hl) as [Hcl Hfl]. destruct (IHr _ Hr) as [Hcr Hfr].
    destruct (hashable_left l') eqn:Hh.
    - pose proof H as Hnew. apply NewHashInTuple_Ok in H as (cmp & -> & _).
      simpl. by rewrite Hfl, Hfr.
    - injection H as <-. simpl. by rewrite Hh, Hfl, Hfr. }
  induction e as [v|g|t IH|l r IHl IHr|l r cmp hn IHl IHr|op cs IH]
    using expr_nested_ind; intros e' H.
  - simpl in H. by injection H as <-.
  - simpl in H. by injection H as <-.
  - rewrite TransformUp_Tuple in H. apply bind_Ok in H as (cs & Hcs & H).
    simpl in H. injection H as <-. apply mapM_Forall2 in Hcs.
    assert (Forall (λ c, index_consistent c ∧ fully_hashed c = true) cs) as Hall.
    { induction Hcs as [|c c' t cs Hc _ IH']; [constructor|].
      inversion IH as [|? ? Hhd Htl]; subst. constructor; auto. }
    simpl. split.
    + apply index_consistent_children. eapply Forall_impl; [exact Hall|].
      by intros c [? _].
    + apply forallb_forall. intros c Hc. apply list_elem_of_In in Hc.
      rewrite Forall_forall in Hall. by apply Hall.
  - by apply (HIn l r).
  - rewrite TransformUp_HashInTuple in H. by apply (HIn l r).
  - rewrite TransformUp_Opaque in H. apply bind_Ok in H as (cs' & Hcs & H).
    simpl in H. injection H as <-. apply mapM_Forall2 in Hcs.
    assert (Forall (λ c, index_consistent c ∧ fully_hashed c = true) cs') as Hall.
    { induction Hcs as [|c c' t cs' Hc _ IH']; [constructor|].
      inversion IH as [|? ? Hhd Htl]; subst. constructor; auto. }
    simpl. split.
    + apply index_consistent_children. eapply Forall_impl; [exact Hall|].
      by intros c [? _].
    + apply forallb_forall. intros c Hc. apply list_elem_of_In in Hc.
      rewrite Forall_forall in Hall. by apply Hall.
Qed.

(** X14: in the plan a successful pass returns, every [HashInTuple] of every
    filter carries exactly the index and flag [NewHashInTuple] builds for
    its own operands, also where the input plan held a [HashInTuple] with
    another index. *)
Theorem applyHashIn_consistent (n : node) :
  ∀ n', applyHashIn n = Ok n' → plan_consistent n'.
Proof.
  induction n as [e child IH|op cs IH] using node_nested_ind; intros n' H.
  - rewrite applyHashIn_Filter in H. apply bind_Ok in H as (child' & Hc & H).
    apply bind_Ok in H as (e' & He & H). injection H as <-. simpl.
    split; [by apply TransformUp_applyHashIn_output in He as [? _]|by apply IH].
  - unfold applyHashIn in H. simpl in H.
    apply bind_Ok in H as (cs' & Hcs & H). simpl in H. injection H as <-.
    simpl. apply index_consistent_children. apply mapM_Forall2 in Hcs.
    induction Hcs as [|c c' cs cs' Hc _ IH']; [constructor|].
    inversion IH as [|? ? Hhd Htl]; subst. constructor; auto.
Qed.

(** X15: after a successful pass over an expression no plain [InTuple] with a
    Literal, GetField or Tuple left operand is left: each one has become
    a [HashInTuple]. *)
Theorem applyHashIn_fully_hashed (e e' : expr) :
  TransformUp applyHashIn_expr e = Ok e' → fully_hashed e' = true.
Proof. intros H. by apply TransformUp_applyHashIn_output in H as [_ ?]. Qed.
End OutputFacts.

(* ================================================================== *)
(** * normalizeLeft *)
(* ================================================================== *)

Lemma mapM_Ok_Forall {A B : Type} (f : A → result B) (l : list A) :
  Forall (λ x, ∃ y, f x = Ok y) l → ∃ l', mapM f l = Ok l'.
Proof.
  induction 1 as [|x l [y Hy] _ [l' IH]]; simpl; [by eexists|].
  rewrite Hy, IH. by eexists.
Qed.

Section NormalizeFacts.
Context `{U : Carriers} `{ST : !SqlType} `{OE : !OpaqueExpr}.

Lemma GetField_Eval_Ok (g : getField) (row : Row) :
  (∃ v, GetField_Eval g row = Ok v) ↔ (fieldIndex g < length row)%nat.
Proof.
  unfold GetField_Eval.
  destruct (row !! fieldIndex g) as [v|] eqn:E.
  - split; intros _; [by apply lookup_lt_Some in E|by exists v].
  - split; [intros [? ?]; discriminate|].
    intros Hlt. apply lookup_lt_is_Some in Hlt as [w Hw].
    change (row !! fieldIndex g = Some w) in Hw.
    rewrite E in Hw. discriminate.
Qed.

Lemma Forall_concat_map {A : Type} (P : nat → Prop) (f : A → list nat) (l : list A) :
  Forall P (concat (map f l)) ↔ Forall (λ x, Forall P (f x)) l.
Proof.
  induction l as [|x l IH]; simpl.
  - split; constructor.
  - rewrite Forall_app, IH. split.
    + intros [? ?]. by constructor.
    + intros H. inversion H. done.
Qed.

(** The bottom-up materialization: what it returns, and when. *)
Lemma TransformUp_normalize_outcome row (e : expr) :
  (∀ e', TransformUp (normalizeLeft_func row) e = Ok e' →
         has_GetField e' = false ∧ expr_Type e' = expr_Type e
         ∧ Forall (λ i, (i < length row)%nat) (field_refs e))
  ∧ (Forall (λ i, (i < length row)%nat) (field_refs e) →
     ∃ e', TransformUp (normalizeLeft_func row) e = Ok e')
  ∧ (∀ err, TransformUp (normalizeLeft_func row) e = Err err →
            err = ErrIndexOutOfBounds)
  ∧ (∀ p, TransformUp (normalizeLeft_func row) e ≠ Panicked p).
Proof.
  assert (∀ l r,
    let P := λ e : expr,
      (∀ e', TransformUp (normalizeLeft_func row) e = Ok e' →
             has_GetField e' = false ∧ expr_Type e' = expr_Type e
             ∧ Forall (λ i, (i < length row)%nat) (field_refs e))
      ∧ (Forall (λ i, (i < length row)%nat) (field_refs e) →
         ∃ e', TransformUp (normalizeLeft_func row) e = Ok e')
      ∧ (∀ err, TransformUp (normalizeLeft_func row) e = Err err →
                err = ErrIndexOutOfBounds)
      ∧ (∀ p, TransformUp (normalizeLeft_func row) e ≠ Panicked p) in
    P l → P r → P (InTuple l r)) as HIn.
  { intros l r P (Hl1 & Hl2 & Hl3 & Hl4) (Hr1 & Hr2 & Hr3 & Hr4).
    unfold P. simpl.
    destruct (TransformUp (normalizeLeft_func row) l) as [l'|el|pl] eqn:Hl;
      simpl.
    2:{ split; [discriminate|]. split; [|split; [|discriminate]].
        - intros Hf. apply Forall_app in Hf as [Hf _].
          destruct (Hl2 Hf). discriminate.
        - intros err [= <-]. by apply Hl3. }
    2:{ by destruct (Hl4 pl). }
    destruct (TransformUp (normalizeLeft_func row) r) as [r'|er|pr] eqn:Hr;
      simpl.
    2:{ split; [discriminate|]. split; [|split; [|discriminate]].
        - intros Hf. apply Forall_app in Hf as [_ Hf].
          destruct (Hr2 Hf). discriminate.
        - intros err [= <-]. by apply Hr3. }
    2:{ by destruct (Hr4 pr). }
    destruct (Hl1 _ eq_refl) as (Hgl & _ & Hfl).
    destruct (Hr1 _ eq_refl) as (Hgr & _ & Hfr).
    split; [|split; [by eexists|split; discriminate]].
    intros e' [= <-]. simpl. rewrite Hgl, Hgr.
    split; [done|]. split; [done|]. by apply Forall_app. }
  induction e as [v|g|t IH|l r IHl IHr|l r cmp hn IHl IHr|op cs IH]
    using expr_nested_ind.
  - simpl. split; [|split; [by eexists|split; discriminate]].
    intros e' [= <-]. split; [done|]. split; [done|constructor].
  - simpl. destruct (GetField_Eval g row) as [v|err|p] eqn:Hg; simpl.
    + split; [|split; [by eexists|split; discriminate]].
      intros e' [= <-]. split; [done|]. split; [done|].
      constructor; [|constructor]. apply GetField_Eval_Ok. by eexists.
    + split; [discriminate|]. split; [|split; [|discriminate]].
      * intros Hf. inversion Hf as [|? ? Hi _]; subst.
        apply GetField_Eval_Ok in Hi as [v Hv]. congruence.
      * intros err' [= <-]. unfold GetField_Eval in Hg.
        destruct (row !! fieldIndex g); congruence.
    + unfold GetField_Eval in Hg. destruct (row !! fieldIndex g); discriminate.
  - rewrite TransformUp_Tuple. simpl field_refs. simpl expr_Type.
    destruct (mapM (TransformUp (normalizeLeft_func row)) t) as [cs|err|p]
      eqn:Hcs; simpl.
    + apply mapM_Forall2 in Hcs.
      assert (Forall (λ c, has_GetField c = false) cs
              ∧ map expr_Type cs = map expr_Type t
              ∧ Forall (λ x, Forall (λ i, (i < length row)%nat) (field_refs x)) t)
        as (Hg & Hty & Hf).
      { induction Hcs as [|c c' t cs Hc _ IH']; [by repeat constructor|].
        inversion IH as [|? ? Hhd Htl]; subst.
        destruct (proj1 Hhd _ Hc) as (? & ? & ?).
        destruct (IH' Htl) as (? & ? & ?).
        split; [by constructor|]. split; [simpl; congruence|by constructor]. }
      split; [|split; [by eexists|split; discriminate]].
      intros e' [= <-]. simpl. split.
      { apply not_true_is_false. intros Hex.
        apply existsb_exists in Hex as (c & Hin & Hc).
        apply list_elem_of_In in Hin. rewrite Forall_forall in Hg.
        rewrite (Hg c Hin) in Hc. discriminate. }
      split; [by rewrite Hty|]. by apply Forall_concat_map.
    + apply mapM_Err in Hcs as (c & Hin & Hc). rewrite Forall_forall in IH.
      destruct (IH c Hin) as (_ & H2 & H3 & _).
      split; [discriminate|]. split; [|split; [|discriminate]].
      * intros Hf. apply Forall_concat_map in Hf.
        rewrite Forall_forall in Hf. destruct (H2 (Hf c Hin)). congruence.
      * intros err' [= <-]. by apply H3.
    + apply mapM_Panicked in Hcs as (c & Hin & Hc). rewrite Forall_forall in IH.
      destruct (IH c Hin) as (_ & _ & _ & H4). by destruct (H4 p).
  - by apply HIn.
  - rewrite TransformUp_HashInTuple. by apply HIn.
  - rewrite TransformUp_Opaque. simpl field_refs. simpl expr_Type.
    destruct (mapM (TransformUp (normalizeLeft_func row)) cs) as [cs'|err|p]
      eqn:Hcs; simpl.
    + apply mapM_Forall2 in Hcs.
      assert (Forall (λ c, has_GetField c = false) cs'
              ∧ Forall (λ x, Forall (λ i, (i < length row)%nat) (field_refs x)) cs)
        as (Hg & Hf).
      { induction Hcs as [|c c' cs cs' Hc _ IH']; [by repeat constructor|].
        inversion IH as [|? ? Hhd Htl]; subst.
        destruct (proj1 Hhd _ Hc) as (? & ? & ?).
        destruct (IH' Htl) as (? & ?).
        split; by constructor. }
      split; [|split; [by eexists|split; discriminate]].
      intros e' [= <-]. simpl. split.
      { apply not_true_is_false. intros Hex.
        apply existsb_exists in Hex as (c & Hin & Hc).
        apply list_elem_of_In in Hin. rewrite Forall_forall in Hg.
        rewrite (Hg c Hin) in Hc. discriminate. }
      split; [done|]. by apply Forall_concat_map.
    + apply mapM_Err in Hcs as (c & Hin & Hc). rewrite Forall_forall in IH.
      destruct (IH c Hin) as (_ & H2 & H3 & _).
      split; [discriminate|]. split; [|split; [|discriminate]].
      * intros Hf. apply Forall_concat_map in Hf.
        rewrite Forall_forall in Hf. destruct (H2 (Hf c Hin)). congruence.
      * intros err' [= <-]. by apply H3.
    + apply mapM_Panicked in Hcs as (c & Hin & Hc). rewrite Forall_forall in IH.
      destruct (IH c Hin) as (_ & _ & _ & H4). by destruct (H4 p).
Qed.

(** X9: what [normalizeLeft] returns has no field reference left in it and
    has the type of the operand it was given. *)
Theorem normalizeLeft_materialized (l l' : expr) (row : Row) :
  normalizeLeft l row = Ok l' →
  has_GetField l' = false ∧ expr_Type l' = expr_Type l.
Proof.
  destruct l as [v|g|t|a b|a b cmp hn|op cs]; try discriminate.
  - by intros [= <-].
  - simpl. destruct (GetField_Eval g row); simpl; try discriminate.
    by intros [= <-].
  - intros H. change (TransformUp (normalizeLeft_func row) (Tuple t) = Ok l') in H.
    by apply TransformUp_normalize_outcome in H as (? & ? & _).
Qed.

(** X10: the outcomes of [normalizeLeft]: an operand that is not a Tuple, a
    Literal or a GetField is refused with [ErrUnsupportedHashInOperand];
    any other operand is materialized when every field reference in it
    addresses a position of the row, and fails with the index error of
    [GetField.Eval] otherwise.  It never panics. *)
Theorem normalizeLeft_outcome (l : expr) (row : Row) :
  if hashable_left l then
    if decide (Forall (λ i, (i < length row)%nat) (field_refs l))
    then ∃ l', normalizeLeft l row = Ok l'
    else normalizeLeft l row = Err ErrIndexOutOfBounds
  else normalizeLeft l row = Err ErrUnsupportedHashInOperand.
Proof.
  destruct l as [v|g|t|a b|a b cmp hn|op cs]; simpl hashable_left; cbv iota;
    try reflexivity.
  - case_decide; [by eexists|]. exfalso. apply H. constructor.
  - simpl. case_decide as Hf.
    + inversion Hf as [|? ? Hi _]; subst.
      apply GetField_Eval_Ok in Hi as [v ->]. by eexists.
    + destruct (GetField_Eval g row) as [v|err|p] eqn:Hg; simpl.
      * exfalso. apply Hf. constructor; [|constructor].
        apply GetField_Eval_Ok. by eexists.
      * unfold GetField_Eval in Hg. destruct (row !! fieldIndex g); congruence.
      * unfold GetField_Eval in Hg. destruct (row !! fieldIndex g); congruence.
  - change (normalizeLeft (Tuple t) row)
      with (TransformUp (normalizeLeft_func row) (Tuple t)).
    destruct (TransformUp_normalize_outcome row (Tuple t)) as (H1 & H2 & H3 & H4).
    case_decide as Hf; [by apply H2|].
    destruct (TransformUp (normalizeLeft_func row) (Tuple t)) as [l'|err|p] eqn:HT.
    + exfalso. apply Hf. by apply (H1 l').
    + by rewrite (H3 err).
    + by destruct (H4 p).
Qed.
End NormalizeFacts.

(* ================================================================== *)
(** * The index of a HashInTuple *)
(* ================================================================== *)

Section IndexFacts.
Context `{U : Carriers} `{ST : !SqlType} `{OE : !OpaqueExpr}.

Lemma hashOf_literal_only (e : expr) (t : type) (key : Z) :
  hashOf e t = Ok key → literal_only e = true.
Proof.
  destruct e as [v|g|tup|a b|a b cmp hn|op cs]; try discriminate; [done|].
  simpl. destruct t as [| |ts]; try discriminate.
  unfold hashOfTuple. intros H. apply bind_Ok in H as (d & Hd & _).
  apply hashOfTuple_loop_literals in Hd. apply forallb_forall.
  intros c Hc. apply list_elem_of_In in Hc. rewrite Forall_forall in Hd.
  by destruct (Hd c Hc) as [l ->].
Qed.

Lemma hashOf_range (e : expr) (t : type) (key : Z) :
  hashOf e t = Ok key → 0 ≤ key < 2 ^ 64.
Proof.
  destruct e as [v|g|tup|a b|a b cmp hn|op cs]; try discriminate; simpl.
  - unfold hashOfLiteral. destruct (Convert _ _); try discriminate.
    intros [= <-]. apply Sum64_range.
  - destruct t as [| |ts]; try discriminate. unfold hashOfTuple.
    intros H. apply bind_Ok in H as (d & _ & H). injection H as <-.
    apply Sum64_range.
Qed.

(** X4: the index [newInMap] builds for a left type other than the null
    type: every entry is a candidate of the right-hand tuple, a Literal
    or a Tuple of Literals, stored under its own key, an unsigned 64-bit
    number; and a key is bound exactly when some candidate hashes to
    it. *)
Theorem newInMap_index (lType : type) (right : list expr)
    (cmp : gmap Z expr) (hasNull : bool) :
  isNull lType = false →
  newInMap (Tuple right) lType = Ok (cmp, hasNull) →
  hasNull = false
  ∧ (∀ key el, cmp !! key = Some el →
       el ∈ right ∧ hashOf el lType = Ok key ∧ literal_only el = true
       ∧ 0 ≤ key < 2 ^ 64)
  ∧ (∀ key, is_Some (cmp !! key) ↔
            ∃ el, el ∈ right ∧ hashOf el lType = Ok key).
Proof.
  intros Hnull H. unfold newInMap in H. rewrite Hnull in H.
  apply bind_Ok in H as (m & Hloop & H). injection H as <- <-.
  split; [done|]. split.
  - intros key el Hel.
    destruct (newInMap_loop_lookup _ _ _ _ key Hloop)
      as [[Hmiss _]|(el' & Hin & Hk & Hhit)].
    + rewrite Hmiss, lookup_empty in Hel. discriminate.
    + rewrite Hhit in Hel. injection Hel as <-. split; [done|]. split; [done|].
      split; [by eapply hashOf_literal_only|by eapply hashOf_range].
  - intros key.
    destruct (newInMap_loop_lookup _ _ _ _ key Hloop)
      as [[Hmiss Hnone]|(el' & Hin & Hk & Hhit)].
    + rewrite Hmiss, lookup_empty. split; [by intros [? ?]|].
      intros (el & Hin & Hk). rewrite Forall_forall in Hnone.
      by destruct (Hnone el Hin).
    + rewrite Hhit. split; [intros _; by exists el'|by eexists].
Qed.

(** X5: a hit needs no equal value: when the key of the materialized,
    non-null left value is the key of any candidate (and the candidates
    have the column count of the left operand), [HashInTuple.Eval] returns
    true; [Compare] is never consulted. *)
Theorem HashInTuple_Eval_hit (l l' hit el : expr) (right : list expr)
    (row : Row) (lv : value) (key : Z) :
  NewHashInTuple l (Tuple right) = Ok hit →
  isNull (expr_Type l) = false →
  normalizeLeft l row = Ok l' →
  Eval l' row = Ok lv → isNil lv = false →
  hashOf l' (expr_Type l) = Ok key →
  el ∈ right → hashOf el (expr_Type l) = Ok key →
  Forall (λ c, NumColumns (Promote (expr_Type c))
               = NumColumns (Promote (expr_Type l'))) right →
  Eval hit row = Ok (VBool true).
Proof.
  intros Hnew Hnull Hnorm Hlv Hnil Hkey Hin Hel Hcols.
  apply NewHashInTuple_Ok in Hnew as (cmp & -> & _ & Hloop).
  destruct (Hloop Hnull) as (right' & [= <-] & Hmap). clear Hloop.
  rewrite Eval_HashInTuple. unfold HashInTuple_Eval.
  rewrite Hnull, Hnorm. simpl. rewrite Hlv. simpl. rewrite Hnil, Hkey. simpl.
  destruct (newInMap_loop_lookup _ _ _ _ key Hmap)
    as [[_ Hnone]|(el' & Hin' & _ & Hhit)].
  - rewrite Forall_forall in Hnone. by destruct (Hnone el Hin).
  - rewrite Hhit. rewrite Forall_forall in Hcols.
    by rewrite (Hcols el' Hin'), Z.eqb_refl.
Qed.

Lemma hashOfTuple_loop_Ok (t : list type) (ls : list literal) :
  ∀ (converted : list value) (i : nat) (hash : xxhash.Digest),
    length converted = length ls →
    (∀ j l, ls !! j = Some l →
       ∃ tj c, t !! (i + j)%nat = Some tj ∧ converted !! j = Some c
               ∧ Convert (Promote tj) (value_ l) = Ok c) →
    hashOfTuple_loop t i (map Literal ls) hash
    = Ok (hash ++ tupleInput converted).
Proof.
  induction ls as [|l ls IH]; intros converted i hash Hlen H.
  - destruct converted; [|discriminate]. simpl.
    unfold tupleInput. simpl. by rewrite app_nil_r.
  - destruct converted as [|c cs]; [discriminate|]. simpl.
    destruct (H 0%nat l eq_refl) as (tj & c' & Htj & [= <-] & Hc).
    rewrite Nat.add_0_r in Htj. rewrite Htj, Hc. simpl.
    rewrite (IH cs (S i)).
    + unfold tupleInput, xxhash.Write. simpl. by rewrite app_assoc.
    + simpl in Hlen. lia.
    + intros j l' Hj. destruct (H (S j) l' Hj) as (tj' & c' & Ht & Hc' & Hcv).
      exists tj', c'. split; [|done].
      by replace (S i + j)%nat with (i + S j)%nat by lia.
Qed.

(** X6: two tuples of literals whose columns convert, under the promoted
    column types, to the same canonical values get the same key from
    [hashOfTuple]: the digest of the converted columns' renderings
    written one after the other. *)
Theorem hashOfTuple_canonical (t : list type) (ls1 ls2 : list literal)
    (converted : list value) :
  length converted = length ls1 → length converted = length ls2 →
  (∀ j l, ls1 !! j = Some l →
     ∃ tj c, t !! j = Some tj ∧ converted !! j = Some c
             ∧ Convert (Promote tj) (value_ l) = Ok c) →
  (∀ j l, ls2 !! j = Some l →
     ∃ tj c, t !! j = Some tj ∧ converted !! j = Some c
             ∧ Convert (Promote tj) (value_ l) = Ok c) →
  hashOfTuple (map Literal ls1) t = Ok (xxhash.Sum64 (tupleInput converted))
  ∧ hashOfTuple (map Literal ls2) t = Ok (xxhash.Sum64 (tupleInput converted)).
Proof.
  intros Hl1 Hl2 H1 H2. unfold hashOfTuple.
  rewrite (hashOfTuple_loop_Ok t ls1 converted 0 xxhash.New Hl1 H1).
  rewrite (hashOfTuple_loop_Ok t ls2 converted 0 xxhash.New Hl2 H2).
  done.
Qed.

Lemma hashOfTuple_loop_app (t : list type) (tup1 tup2 : list expr) :
  ∀ i hash,
    hashOfTuple_loop t i (tup1 ++ tup2) hash
    = (d ← hashOfTuple_loop t i tup1 hash;
       hashOfTuple_loop t (i + length tup1) tup2 d).
Proof.
  induction tup1 as [|el tup1 IH]; intros i hash; simpl.
  - by rewrite Nat.add_0_r.
  - destruct el; try reflexivity.
    destruct (t !! i); [|reflexivity].
    destruct (Convert _ _); simpl; try reflexivity.
    rewrite IH. by rewrite Nat.add_succ_r.
Qed.

Lemma newInMap_loop_app (lType : type) (pre post : list expr) :
  ∀ elements,
    newInMap_loop lType (pre ++ post) elements
    = (m ← newInMap_loop lType pre elements; newInMap_loop lType post m).
Proof.
  induction pre as [|el pre IH]; intros elements; simpl; [done|].
  destruct el; try reflexivity;
    (destruct (hashOf _ lType) as [key|err|p]; try reflexivity;
     [apply IH|destruct (ErrInvalidType_Is err); [apply IH|reflexivity]]).
Qed.

(** X7: a candidate tuple of literals with more elements than the tuple type
    of the left operand has columns is not refused: once the columns
    that exist have converted, indexing the type past its end panics,
    and the panic goes through [hashOf] and [newInMap] whatever candidates
    follow. *)
Theorem hashOfTuple_out_of_range (t : list type) (ls : list literal)
    (converted : list value) (extra : literal) (rest pre post : list expr)
    (m : gmap Z expr) :
  length ls = length t → length converted = length ls →
  (∀ j l, ls !! j = Some l →
     ∃ tj c, t !! j = Some tj ∧ converted !! j = Some c
             ∧ Convert (Promote tj) (value_ l) = Ok c) →
  newInMap_loop (TupleType t) pre ∅ = Ok m →
  hashOfTuple (map Literal ls ++ Literal extra :: rest) t
  = Panicked IndexOutOfRange
  ∧ newInMap (Tuple (pre ++ Tuple (map Literal ls ++ Literal extra :: rest)
                       :: post)) (TupleType t)
    = Panicked IndexOutOfRange.
Proof.
  intros Hlen Hlc Hconv Hpre.
  assert (hashOfTuple (map Literal ls ++ Literal extra :: rest) t
          = Panicked IndexOutOfRange) as Hp.
  { unfold hashOfTuple. rewrite hashOfTuple_loop_app.
    rewrite (hashOfTuple_loop_Ok t ls converted 0 xxhash.New Hlc Hconv).
    simpl. rewrite length_map, Hlen.
    by rewrite (lookup_ge_None_2 t (length t)). }
  split; [exact Hp|].
  unfold newInMap. simpl isNull. cbv iota.
  rewrite newInMap_loop_app, Hpre. simpl. by rewrite Hp.
Qed.
End IndexFacts.

(* ================================================================== *)
(** * Rebuilding an expression; candidates passed over *)
(* ================================================================== *)

Section RebuildFacts.
Context `{U : Carriers} `{ST : !SqlType} `{OE : !OpaqueExpr}.

(** X16: rebuilding a tree through [Children] and [WithChildren] loses every
    index: [HashInTuple] has no [WithChildren] of its own and the one it
    inherits builds an [InTuple], so even the transform whose callback
    changes nothing returns each [HashInTuple] as the plain [InTuple] over
    its operands. *)
Theorem TransformUp_without_index (e : expr) :
  TransformUp (λ e', Ok e') e = Ok (without_index e).
Proof.
  induction e as [v|g|t IH|l r IHl IHr|l r cmp hn IHl IHr|op cs IH]
    using expr_nested_ind; try reflexivity.
  - rewrite TransformUp_Tuple.
    assert (mapM (TransformUp (λ e', Ok e')) t = Ok (map without_index t))
      as ->; [|done].
    induction IH as [|c t Hc _ IH']; simpl; [done|]. by rewrite Hc, IH'.
  - simpl. by rewrite IHl, IHr.
  - simpl. by rewrite IHl, IHr.
  - rewrite TransformUp_Opaque.
    assert (mapM (TransformUp (λ e', Ok e')) cs = Ok (map without_index cs))
      as ->; [|done].
    induction IH as [|c cs Hc _ IH']; simpl; [done|]. by rewrite Hc, IH'.
Qed.

(** X8: a candidate that [hashOf] refuses with [ErrInvalidType] (a literal
    whose value does not convert to the comparison type, a tuple against
    a left type that is no tuple type) is passed over: the index is the
    one built from the other candidates. *)
Theorem newInMap_skips (lType : type) (pre post : list expr) (el : expr)
    (err : error) :
  literal_or_tuple el = true →
  hashOf el lType = Err err → ErrInvalidType_Is err = true →
  newInMap (Tuple (pre ++ el :: post)) lType
  = newInMap (Tuple (pre ++ post)) lType.
Proof.
  intros Hkind Hel Herr. unfold newInMap.
  destruct (isNull lType); [reflexivity|].
  rewrite !newInMap_loop_app.
  destruct (newInMap_loop lType pre ∅) as [m| |]; simpl; try reflexivity.
  destruct el; try discriminate Hkind; by rewrite Hel, Herr.
Qed.
End RebuildFacts.

(* ================================================================== *)
(** * validateIndexes and validateCreateTable *)
(* ================================================================== *)

Section CreateTableFacts.
Context `{U : Carriers}.
Variable ToLower : string → string.

Lemma validateIndexes_names_lookup (schema : Schema) (k : string) :
  ∀ m : gmap string bool,
    lookup_bool (foldl (λ lwrNames col, <[ToLower (Name col) := true]> lwrNames)
                   m schema) k = true
    ↔ lookup_bool m k = true ∨ ∃ c, c ∈ schema ∧ ToLower (Name c) = k.
Proof.
  induction schema as [|col rest IH]; intros m; simpl.
  - split; [auto|]. intros [?|(c & Hc & _)]; [done|]. inversion Hc.
  - rewrite IH. unfold lookup_bool. split.
    + intros [H|(c & Hc & Hk)].
      * destruct (decide (ToLower (Name col) = k)) as [Heq|Hne].
        -- right. exists col. split; [constructor|done].
        -- rewrite lookup_insert_ne in H by done. by left.
      * right. exists c. split; [by constructor|done].
    + intros [H|(c & Hc & Hk)].
      * left. destruct (decide (ToLower (Name col) = k)) as [->|Hne].
        -- by rewrite lookup_insert_eq.
        -- by rewrite lookup_insert_ne.
      * inversion Hc; subst.
        -- left. by rewrite lookup_insert_eq.
        -- right. by exists c.
Qed.

Lemma validateIndexes_names_known (schema : Schema) (col : IndexColumn) :
  lookup_bool (validateIndexes_names ToLower schema)
    (ToLower (IndexColumn_Name col)) = true
  ↔ known_column ToLower schema col.
Proof.
  unfold validateIndexes_names. rewrite validateIndexes_names_lookup.
  unfold lookup_bool at 1. rewrite lookup_empty. simpl. unfold known_column.
  split; [intros [?|?]; done|by right].
Qed.

Lemma validateIndexes_columns_None lwrNames idx (cols : list IndexColumn) :
  validateIndexes_columns ToLower lwrNames idx cols = None ↔
  Forall (λ col, lookup_bool lwrNames (ToLower (IndexColumn_Name col)) = true)
    cols.
Proof.
  induction cols as [|col rest IH]; simpl; [split; [constructor|done]|].
  destruct (lookup_bool lwrNames _) eqn:Hk; simpl.
  - rewrite IH. split; [by constructor|]. intros H. by inversion H.
  - split; [discriminate|]. intros H. inversion H. congruence.
Qed.

Lemma validateIndexes_loop_None lwrNames (idxDefs : list IndexDefinition) :
  validateIndexes_loop ToLower lwrNames idxDefs = None ↔
  Forall (λ idx, Forall (λ col, lookup_bool lwrNames
                                  (ToLower (IndexColumn_Name col)) = true)
                   (Columns idx)) idxDefs.
Proof.
  induction idxDefs as [|idx rest IH]; simpl; [split; [constructor|done]|].
  destruct (validateIndexes_columns ToLower lwrNames idx (Columns idx))
    as [err|] eqn:Hc.
  - split; [discriminate|]. intros H. inversion H as [|? ? Hidx _]; subst.
    apply (proj2 (validateIndexes_columns_None lwrNames idx _)) in Hidx.
    congruence.
  - apply validateIndexes_columns_None in Hc. rewrite IH.
    split; [by constructor|]. intros H. by inversion H.
Qed.

Lemma known_column_lookup (schema : Schema) (idxDefs : list IndexDefinition) :
  Forall (λ idx,
            Forall (λ col, lookup_bool (validateIndexes_names ToLower schema)
                             (ToLower (IndexColumn_Name col)) = true)
              (Columns idx)) idxDefs
  ↔ Forall (λ idx, Forall (known_column ToLower schema) (Columns idx)) idxDefs.
Proof.
  split; intros H; (eapply Forall_impl; [exact H|]); intros idx Hidx;
    (eapply Forall_impl; [exact Hidx|]); intros col Hcol;
    by apply validateIndexes_names_known.
Qed.

(** X17: [validateIndexes] returns nil exactly when every column of every
    index definition names a column of the schema, letter case apart
    (both names are lowercased before they are compared). *)
Theorem validateIndexes_iff (tableSpec : TableSpec) :
  validateIndexes ToLower tableSpec = None ↔
  Forall (λ idx, Forall (known_column ToLower (TableSpec_Schema tableSpec))
                   (Columns idx))
    (IdxDefs tableSpec).
Proof.
  unfold validateIndexes. rewrite validateIndexes_loop_None.
  apply known_column_lookup.
Qed.

(** X18: the error of [validateIndexes] is the one of the first unknown
    column, in the order of the index definitions and of their columns:
    [ErrUnknownIndexColumn] with the column name as written and the name
    of its index. *)
Theorem validateIndexes_first_unknown (tableSpec : TableSpec)
    (pre post : list IndexDefinition) (idx : IndexDefinition)
    (cpre cpost : list IndexColumn) (col : IndexColumn) :
  IdxDefs tableSpec = pre ++ idx :: post →
  Columns idx = cpre ++ col :: cpost →
  Forall (λ i, Forall (known_column ToLower (TableSpec_Schema tableSpec))
                 (Columns i)) pre →
  Forall (known_column ToLower (TableSpec_Schema tableSpec)) cpre →
  ¬ known_column ToLower (TableSpec_Schema tableSpec) col →
  validateIndexes ToLower tableSpec
  = Some (ErrUnknownIndexColumn (IndexColumn_Name col) (IndexName idx)).
Proof.
  intros Hidx Hcols Hpre Hcpre Hcol. unfold validateIndexes. rewrite Hidx.
  set (names :=
         validateIndexes_names ToLower (TableSpec_Schema tableSpec)).
  clear Hidx. induction Hpre as [|i pre Hi _ IH]; simpl.
  - rewrite Hcols. clear Hcols.
    induction Hcpre as [|c cpre Hc _ IH]; simpl.
    + destruct (lookup_bool names _) eqn:Hk; simpl; [|reflexivity].
      exfalso. apply Hcol. by apply validateIndexes_names_known.
    + apply validateIndexes_names_known in Hc. fold names in Hc.
      rewrite Hc. simpl. exact IH.
  - assert (validateIndexes_columns ToLower names i (Columns i) = None) as ->;
      [|exact IH].
    apply validateIndexes_columns_None.
    eapply Forall_impl; [exact Hi|]. intros c Hc.
    by apply validateIndexes_names_known.
Qed.

(** X19: [validateCreateTable] accepts a node, and returns it as it is,
    exactly when it is no CREATE TABLE or its schema has no offending
    AUTO_INCREMENT column and its indexes name known columns only; an
    error of the AUTO_INCREMENT check is reported before, and instead
    of, an unknown index column. *)
Theorem validateCreateTable_accepts (n : analyzedNode) :
  (∀ n', validateCreateTable ToLower n = inl n' → n' = n)
  ∧ ((∃ n', validateCreateTable ToLower n = inl n') ↔
     match n with
     | AnyOtherNode _ => True
     | CreateTableNode ct =>
         (¬ ∃ i col, offending (CreateSchema ct) false i col)
         ∧ Forall (λ idx,
                     Forall (known_column ToLower
                               (TableSpec_Schema (CreateTable_TableSpec ct)))
                       (Columns idx))
             (IdxDefs (CreateTable_TableSpec ct))
     end)
  ∧ (∀ ct err, n = CreateTableNode ct →
       validateAutoIncrement (CreateSchema ct) = Some err →
       validateCreateTable ToLower n
       = inr (AutoIncrementError ErrInvalidAutoIncCols)).
Proof.
  split; [|split].
  - intros n'. destruct n as [ct|m]; simpl; [|by intros [= <-]].
    destruct (validateAutoIncrement _); [discriminate|].
    destruct (validateIndexes ToLower _); [discriminate|]. by intros [= <-].
  - destruct n as [ct|m]; simpl; [|split; [done|by eexists]].
    rewrite <- known_column_lookup, <- validateIndexes_loop_None.
    fold (validateIndexes ToLower (CreateTable_TableSpec ct)).
    rewrite <- validateAutoIncrement_loop_iff.
    fold (validateAutoIncrement (CreateSchema ct)).
    destruct (validateAutoIncrement (CreateSchema ct)) as [err|] eqn:Hai.
    + pose proof Hai as Hk. unfold validateAutoIncrement in Hk.
      apply validateAutoIncrement_loop_kind in Hk as ->.
      split; [intros [? ?]; discriminate|]. intros [Hno _]. by destruct Hno.
    + destruct (validateIndexes ToLower _) as [err|] eqn:Hidx.
      * split; [intros [? ?]; discriminate|]. intros [_ ?]. discriminate.
      * split; [|by eexists]. intros _. split; [discriminate|done].
  - intros ct err -> Hai. simpl. rewrite Hai.
    unfold validateAutoIncrement in Hai.
    by apply validateAutoIncrement_loop_kind in Hai as ->.
Qed.
End CreateTableFacts.

(* ================================================================== *)
(** * Runs of an errorHandlerIter *)
(* ================================================================== *)

Section ErrorHandlerRunsFacts.
Context {R St W : Type}.

Lemma errorHandlerIter_Next_child (e : errorHandlerIter R St W) s w :
  errorHandlerIter_Next e (s, w)
  = (suppressed (fst (RowIter_Next (childIter e) s)),
     (snd (RowIter_Next (childIter e) s),
      handled e w [fst (RowIter_Next (childIter e) s)])).
Proof.
  unfold errorHandlerIter_Next, suppressed, handled. simpl.
  destruct (RowIter_Next (childIter e) s) as [[row err] s']. simpl.
  destruct err as [[]|]; reflexivity.
Qed.

(** X20: any number of calls of [errorHandlerIter.Next] return the rows of the
    child in order, with [io.EOF] as the only error that ever comes
    out; the child advances as it would alone, and the handler has been
    called once for each other error of the child, in the order they
    occurred. *)
Theorem errorHandlerIter_Nexts_child (e : errorHandlerIter R St W)
    (k : nat) (s : St) (w : W) :
  errorHandlerIter_Nexts e k (s, w)
  = (map suppressed (fst (RowIter_Nexts (childIter e) k s)),
     (snd (RowIter_Nexts (childIter e) k s),
      handled e w (fst (RowIter_Nexts (childIter e) k s))))
  ∧ Forall (λ out, snd out = None ∨ snd out = Some EOF)
      (fst (errorHandlerIter_Nexts e k (s, w))).
Proof.
  assert (∀ k s w,
    errorHandlerIter_Nexts e k (s, w)
    = (map suppressed (fst (RowIter_Nexts (childIter e) k s)),
       (snd (RowIter_Nexts (childIter e) k s),
        handled e w (fst (RowIter_Nexts (childIter e) k s))))) as Heq.
  { clear. intros k. induction k as [|k IH]; intros s w; [reflexivity|].
    simpl. rewrite errorHandlerIter_Next_child.
    destruct (RowIter_Next (childIter e) s) as [out s'] eqn:Hout. simpl.
    rewrite IH.
    destruct (RowIter_Nexts (childIter e) k s') as [outs s'']. simpl.
    reflexivity. }
  split; [apply Heq|]. rewrite Heq. simpl.
  apply Forall_forall. intros out Hin. apply list_elem_of_fmap in Hin
    as ([row err] & -> & _).
  unfold suppressed. simpl. destruct err as [[]|]; simpl; auto.
Qed.
End ErrorHandlerRunsFacts.

(* ================================================================== *)
(** * Concrete runs *)
(* ================================================================== *)

Section Runs.
Import Demo.
#[local] Existing Instances demoU demoST demoOE.

(** C1, counterexample: [x IN (1, y)] under a filter.  The index cannot be
    built (the candidate [y] is a column reference), and [applyHashIn]
    returns the build error to its caller; it does not return the plan
    with the predicate left as it was. *)
Lemma applyHashIn_surfaces_build_failure :
  NewHashInTuple x (Tuple in1y) = Err ErrUnsupportedHashInSubexpression
  ∧ applyHashIn (Filter (InTuple x (Tuple in1y)) (table "t"))
    = Err ErrUnsupportedHashInSubexpression
  ∧ applyHashIn (Filter (InTuple x (Tuple in1y)) (table "t"))
    ≠ Ok (Filter (InTuple x (Tuple in1y)) (table "t")).
Proof. split; [|split]; [reflexivity|reflexivity|discriminate]. Qed.

(** C1, witness: the same plan, [x IN (1, y)] under a filter. *)
Lemma applyHashIn_build_failure_witness :
  applyHashIn_expr (InTuple x (Tuple in1y))
  = Err ErrUnsupportedHashInSubexpression
  ∧ applyHashIn (Filter (InTuple x (Tuple in1y)) (table "t"))
    = Err ErrUnsupportedHashInSubexpression.
Proof.
  apply (applyHashIn_build_failure x (Tuple in1y) x (Tuple in1y)
           (table "t") (table "t")); reflexivity.
Defined.

(** C2, counterexample: [x IN (1, (2, 3))] with [x] bound to 1.  No
    candidate evaluates to null and the candidate 1 has the arity of [x]
    and matches it.  The hashed predicate, for which [newInMap] skipped
    the candidate [(2, 3)], returns true; [InTuple.Eval] returns the arity
    error of [(2, 3)]. *)
Lemma HashInTuple_Eval_differs :
  NewHashInTuple x (Tuple in1_23) = Ok (built x (Tuple in1_23))
  ∧ Forall (λ el, Eval el [int64 1] ≠ Ok VNil) in1_23
  ∧ NumColumns (expr_Type one) = NumColumns (Promote (expr_Type x))
  ∧ candidate_matches (Promote (expr_Type x)) (int64 1) [int64 1] one = true
  ∧ Eval (built x (Tuple in1_23)) [int64 1] = Ok (VBool true)
  ∧ Eval (InTuple x (Tuple in1_23)) [int64 1]
    = Err (ErrInvalidOperandColumns 1 2).
Proof.
  split; [vm_compute; reflexivity|].
  split; [repeat constructor; vm_compute; discriminate|].
  split; [reflexivity|]. split; [reflexivity|].
  split; vm_compute; reflexivity.
Qed.

(** C2, witness: [x IN (1, 2, 3)] with [x] bound to 2 (Scenario A). *)
Lemma HashInTuple_Eval_agrees_witness :
  Eval (built x (Tuple in123)) [int64 2]
  = Eval (InTuple x (Tuple in123)) [int64 2]
  ∧ Eval (built x (Tuple in123)) [int64 2]
    = Ok (VBool (existsb
                   (candidate_matches (Promote (expr_Type x)) (int64 2)
                      [int64 2])
                   in123)).
Proof.
  apply (HashInTuple_Eval_agrees x (built x (Tuple in123))
           (lit (int64 2) Int64T) in123 [int64 2] (int64 2) (int64 2)
           (keyOf (lit (int64 2) Int64T) Int64T)).
  1-7: vm_compute; reflexivity.
  repeat constructor; vm_compute; reflexivity.
Defined.

(** C3, witness: [x IN (1, 2, 3)] with [x] bound to 5. *)
Lemma HashInTuple_Eval_null_iff_witness :
  ∃ cmp,
    built x (Tuple in123)
    = HashInTuple x (Tuple in123) cmp (isNull (expr_Type x))
    ∧ (isNull (expr_Type x) = true → cmp = ∅)
    ∧ (Eval (built x (Tuple in123)) [int64 5] = Ok VNil ↔
         isNull (expr_Type x) = true
         ∨ ∃ l', normalizeLeft x [int64 5] = Ok l'
                 ∧ Eval l' [int64 5] = Ok VNil)
    ∧ (∀ l' v key,
         isNull (expr_Type x) = false →
         normalizeLeft x [int64 5] = Ok l' →
         Eval l' [int64 5] = Ok v → isNil v = false →
         hashOf l' (expr_Type x) = Ok key →
         cmp !! key = None →
         Eval (built x (Tuple in123)) [int64 5] = Ok (VBool false)).
Proof.
  apply (HashInTuple_Eval_null_iff x (Tuple in123)). vm_compute. reflexivity.
Defined.

(** C4, witness: [x IN (NULL, NULL)] with [x] bound to 5. *)
Lemma InTuple_Eval_second_null_witness :
  Eval (InTuple x (Tuple [null; null])) [int64 5] =
    (right ← Convert (Promote (expr_Type x)) VNil;
     cmp ← Compare (Promote (expr_Type x)) (int64 5) right;
     if cmp =? 0 then Ok (VBool true) else Ok VNil).
Proof.
  apply (InTuple_Eval_second_null x null null [int64 5] (int64 5) (int64 5));
    reflexivity.
Defined.

(** C5, counterexample: [1 IN (1, (2, 3))].  The first element has the
    arity of the left operand and is equal to it, yet the result is not
    true: the arity of the later element [(2, 3)] was checked before the
    first element was evaluated. *)
Lemma InTuple_Eval_checks_arity_first :
  NumColumns (expr_Type one) = NumColumns (Promote (expr_Type one))
  ∧ Eval one [] = Ok (int64 1)
  ∧ Convert (Promote (expr_Type one)) (int64 1) = Ok (int64 1)
  ∧ Compare (Promote (expr_Type one)) (int64 1) (int64 1) = Ok 0
  ∧ Eval (InTuple one (Tuple in1_23)) []
    = Err (ErrInvalidOperandColumns 1 2)
  ∧ Eval (InTuple one (Tuple in1_23)) [] ≠ Ok (VBool true).
Proof.
  repeat split; try reflexivity. discriminate.
Qed.

(** C5, witness: [2 IN (1, (2, 3), y)] and [2 IN (1, 2, y)] on the empty
    row, where [y] cannot be evaluated. *)
Lemma InTuple_Eval_order_witness :
  Eval (InTuple two32 (Tuple ([one] ++ Tuple [two32; three] :: [y]))) []
  = Err (ErrInvalidOperandColumns 1 2)
  ∧ Eval (InTuple two32 (Tuple ([one] ++ two32 :: [y]))) [] = Ok (VBool true).
Proof.
  split.
  - refine (proj1 (InTuple_Eval_order two32 [] (int32 2) (int64 2) [one] [y]
                     (Tuple [two32; three]) eq_refl eq_refl eq_refl _) _).
    + repeat constructor.
    + vm_compute. discriminate.
  - refine (proj2 (InTuple_Eval_order two32 [] (int32 2) (int64 2) [one] [y]
                     two32 eq_refl eq_refl eq_refl _)
              (int32 2) (int64 2) _ _ eq_refl eq_refl eq_refl eq_refl).
    + repeat constructor.
    + repeat constructor.
    + repeat constructor. exists (int64 1), (int64 1), 1.
      repeat split; try reflexivity. discriminate.
Defined.

(** C6, witness: [(SELECT ...) IN (1, 2, 3)], a subquery as left operand. *)
Lemma applyHashIn_only_hashable_left_witness :
  applyHashIn_expr (InTuple subquery (Tuple in123))
  = Ok (InTuple subquery (Tuple in123))
  ∧ TransformUp applyHashIn_expr
      (InTuple subquery (Tuple in123))
    = (l' ← TransformUp applyHashIn_expr subquery;
       r' ← TransformUp applyHashIn_expr (Tuple in123);
       Ok (InTuple l' r'))
  ∧ (∀ e', TransformUp applyHashIn_expr
             (InTuple subquery (Tuple in123))
           = Ok e' →
           isHashInTuple e' = false).
Proof.
  apply (applyHashIn_only_hashable_left
           subquery (Tuple in123)).
  reflexivity.
Defined.

(** C8, witness: the int32 5 and the int64 5 against an int64 column. *)
Lemma hashOfLiteral_canonical_witness :
  ∃ key,
    hashOfLiteral (NewLiteral (int32 5) Int32T) Int64T = Ok key
    ∧ hashOfLiteral (NewLiteral (int64 5) Int64T) Int64T = Ok key
    ∧ 0 ≤ key < 2 ^ 64.
Proof.
  apply (hashOfLiteral_canonical Int64T (NewLiteral (int32 5) Int32T)
           (NewLiteral (int64 5) Int64T) (int64 5)); reflexivity.
Defined.

(** C9, witness: a child that yields a row, then fails, then ends. *)
Lemma errorHandlerIter_Next_cases_witness :
  errorHandlerIter_Next logging ([([int64 1], None)], [])
  = ([int64 1], None, ([], []))
  ∧ errorHandlerIter_Next logging ([([], Some (ErrOther "lost"))], [])
    = ([], None, ([], [ErrOther "lost"]))
  ∧ errorHandlerIter_Next logging ([], [ErrOther "lost"])
    = ([], Some EOF, ([], [ErrOther "lost"])).
Proof.
  split; [|split].
  - apply (errorHandlerIter_Next_cases logging [([int64 1], None)] []
             [int64 1] None [] eq_refl). reflexivity.
  - apply (errorHandlerIter_Next_cases logging
             [([], Some (ErrOther "lost"))] [] [] (Some (ErrOther "lost")) []
             eq_refl); [reflexivity|discriminate].
  - apply (errorHandlerIter_Next_cases logging [] [ErrOther "lost"]
             [] (Some EOF) [] eq_refl). reflexivity.
Defined.

(** X1, witness: [x IN (1, NULL, 3)] with [x] bound to 5. *)
Lemma InTuple_Eval_no_match_witness :
  Eval (InTuple x (Tuple [one; null; three])) [int64 5]
  = Ok (if existsb (evaluates_nil [int64 5]) [one; null; three]
        then VNil else VBool false).
Proof.
  apply (InTuple_Eval_no_match x [int64 5] (int64 5) (int64 5)
           [one; null; three]); try reflexivity.
  - repeat constructor.
  - constructor; [right|constructor; [left; reflexivity|constructor; [right|constructor]]].
    + exists (int64 1), (int64 1), 1. repeat split; try reflexivity. discriminate.
    + exists (int64 3), (int64 3), 1. repeat split; try reflexivity. discriminate.
  - right. vm_compute. lia.
Defined.


(** X3, witness: [(1, y)] as candidates for an int64 column. *)
Lemma newInMap_aborts_witness :
  newInMap (Tuple in1y) Int64T ≠ Ok (∅, false)
  ∧ newInMap (Tuple in1y) Int64T = Err ErrUnsupportedHashInSubexpression.
Proof.
  split; [|reflexivity].
  apply (newInMap_aborts Int64T in1y y); [reflexivity| |reflexivity].
  apply list_elem_of_In. simpl. auto.
Defined.

(** ** The scenarios of the specification, run on the instance *)

(** Scenario A: [x IN (1, 2, 3)], [x] bound to 2: both predicates are
    true. *)
Example scenario_A :
  Eval (InTuple x (Tuple in123)) [int64 2] = Ok (VBool true)
  ∧ Eval (built x (Tuple in123)) [int64 2] = Ok (VBool true).
Proof. split; vm_compute; reflexivity. Qed.

(** Scenario B: [x IN (1, 2, NULL)], [x] bound to 5: the linear scan is
    unknown, the hashed predicate is false. *)
Example scenario_B :
  Eval (InTuple x (Tuple [one; two32; null])) [int64 5] = Ok VNil
  ∧ Eval (built x (Tuple [one; two32; null])) [int64 5] = Ok (VBool false)
  ∧ isHashInTuple (built x (Tuple [one; two32; null])) = true.
Proof. repeat split; vm_compute; reflexivity. Qed.

(** Scenario C: [(SELECT ...) IN (1, 2, 3)] under a filter stays as it
    is. *)
Example scenario_C :
  applyHashIn (Filter (InTuple subquery (Tuple in123)) (table "t"))
  = Ok (Filter (InTuple subquery (Tuple in123)) (table "t")).
Proof. reflexivity. Qed.

(** Scenario D: [(x, y) IN ((1, 2), (3, 4))], [(x, y)] bound to (3, 4):
    both predicates are true. *)
Example scenario_D :
  let cands :=
    Tuple [Tuple [one; lit (int64 2) Int64T];
           Tuple [three; lit (int64 4) Int64T]] in
  Eval (InTuple (Tuple [x; y]) cands) [int64 3; int64 4] = Ok (VBool true)
  ∧ Eval (built (Tuple [x; y]) cands) [int64 3; int64 4] = Ok (VBool true)
  ∧ isHashInTuple (built (Tuple [x; y]) cands) = true.
Proof. repeat split; vm_compute; reflexivity. Qed.

(** Scenario E: [x IN (1, y)]: the index is not built, and the linear
    scan evaluates as before. *)
Example scenario_E :
  NewHashInTuple x (Tuple in1y) = Err ErrUnsupportedHashInSubexpression
  ∧ Eval (InTuple x (Tuple in1y)) [int64 7; int64 7] = Ok (VBool true)
  ∧ Eval (InTuple x (Tuple in1y)) [int64 7; int64 8] = Ok (VBool false).
Proof. repeat split; vm_compute; reflexivity. Qed.

Import Demo2.

(** X4, witness: the index of [x IN (1, 2, 3)]. *)
Lemma newInMap_index_witness :
  ∃ cmp,
    newInMap (Tuple in123) Int64T = Ok (cmp, false)
    ∧ (∀ key el, cmp !! key = Some el →
         el ∈ in123 ∧ hashOf el Int64T = Ok key ∧ literal_only el = true
         ∧ 0 ≤ key < 2 ^ 64)
    ∧ (∀ key, is_Some (cmp !! key) ↔
              ∃ el, el ∈ in123 ∧ hashOf el Int64T = Ok key).
Proof.
  destruct (newInMap (Tuple in123) Int64T) as [[cmp hasNull]| |] eqn:H;
    [|vm_compute in H; discriminate..].
  destruct (newInMap_index Int64T in123 cmp hasNull eq_refl H) as (-> & H1 & H2).
  by exists cmp.
Defined.

(** X5, witness: [x IN (1, 2, 3)] with [x] bound to an int32 2. *)
Lemma HashInTuple_Eval_hit_witness :
  Eval (built x (Tuple in123)) [int32 2] = Ok (VBool true).
Proof.
  apply (HashInTuple_Eval_hit x (lit (int32 2) Int64T) (built x (Tuple in123))
           two32 in123 [int32 2] (int32 2) (keyOf two32 Int64T)).
  1-6: vm_compute; reflexivity.
  - apply list_elem_of_In. simpl. auto.
  - vm_compute. reflexivity.
  - repeat constructor.
Defined.

(** X6, witness: [(1, 2)] written as (int32, int64) and as (int64, int32)
    against two int64 columns. *)
Lemma hashOfTuple_canonical_witness :
  hashOfTuple (map Literal [lit32 1; lit64 2]) [Int64T; Int64T]
  = Ok (xxhash.Sum64 (tupleInput [int64 1; int64 2]))
  ∧ hashOfTuple (map Literal [lit64 1; lit32 2]) [Int64T; Int64T]
    = Ok (xxhash.Sum64 (tupleInput [int64 1; int64 2])).
Proof.
  apply (hashOfTuple_canonical [Int64T; Int64T] [lit32 1; lit64 2]
           [lit64 1; lit32 2] [int64 1; int64 2]); try reflexivity.
  - intros [|[|j]] l [= <-]; eexists _, _; repeat split; reflexivity.
  - intros [|[|j]] l [= <-]; eexists _, _; repeat split; reflexivity.
Defined.

(** X7, witness: [(x, y) IN ((1, 2, 3))]. *)
Lemma hashOfTuple_out_of_range_witness :
  hashOfTuple (map Literal [lit64 1; lit64 2] ++ Literal (lit64 3) :: [])
    [Int64T; Int64T]
  = Panicked IndexOutOfRange
  ∧ newInMap (Tuple ([] ++ Tuple (map Literal [lit64 1; lit64 2]
                                    ++ Literal (lit64 3) :: []) :: []))
      (TupleType [Int64T; Int64T])
    = Panicked IndexOutOfRange.
Proof.
  apply (hashOfTuple_out_of_range [Int64T; Int64T] [lit64 1; lit64 2]
           [int64 1; int64 2] (lit64 3) [] [] [] ∅); try reflexivity.
  intros [|[|j]] l [= <-]; eexists _, _; repeat split; reflexivity.
Defined.

(** X8, witness: [x IN (1, (2, 3))]: the tuple is passed over. *)
Lemma newInMap_skips_witness :
  newInMap (Tuple ([one] ++ Tuple [two32; three] :: [])) Int64T
  = newInMap (Tuple ([one] ++ [])) Int64T.
Proof.
  apply (newInMap_skips Int64T [one] [] (Tuple [two32; three]) ErrInvalidType);
    reflexivity.
Defined.

(** X9, witness: [(x, y)] on the row (3, 4). *)
Lemma normalizeLeft_materialized_witness :
  has_GetField (Tuple [lit (int64 3) Int64T; lit (int64 4) Int64T]) = false
  ∧ expr_Type (Tuple [lit (int64 3) Int64T; lit (int64 4) Int64T])
    = expr_Type xy.
Proof.
  apply (normalizeLeft_materialized xy _ [int64 3; int64 4]). reflexivity.
Defined.

(** X11, witness: a filter [NOT x] over a table. *)
Lemma applyHashIn_frame_witness :
  applyHashIn (Filter (Opaque (Not : @opaque demoU) [x]) (table "t"))
  = Ok (Filter (Opaque (Not : @opaque demoU) [x]) (table "t")).
Proof. apply applyHashIn_frame. reflexivity. Defined.

(** X12, witness: [NOT (x IN (1, 2, 3))]. *)
Lemma applyHashIn_expr_Type_witness :
  expr_Type (Opaque (Not : @opaque demoU) [built x (Tuple in123)])
  = expr_Type (Opaque (Not : @opaque demoU) [InTuple x (Tuple in123)]).
Proof.
  apply (applyHashIn_expr_Type
           (Opaque (Not : @opaque demoU) [InTuple x (Tuple in123)])).
  vm_compute. reflexivity.
Defined.


(** X14, witness: a filter holding a [HashInTuple] with an empty index. *)
Lemma applyHashIn_consistent_witness :
  plan_consistent (Filter (built x (Tuple in123)) (table "t")).
Proof.
  apply (applyHashIn_consistent
           (Filter (HashInTuple x (Tuple in123) ∅ false) (table "t"))).
  vm_compute. reflexivity.
Defined.

(** X15, witness: [NOT (x IN (1, 2, 3))]. *)
Lemma applyHashIn_fully_hashed_witness :
  fully_hashed (Opaque (Not : @opaque demoU) [built x (Tuple in123)]) = true.
Proof.
  apply (applyHashIn_fully_hashed
           (Opaque (Not : @opaque demoU) [InTuple x (Tuple in123)])).
  vm_compute. reflexivity.
Defined.

(** X18, witness: the index [by_age (id, age)] on a table without a
    column [age]. *)
Lemma validateIndexes_first_unknown_witness :
  validateIndexes lower users_spec
  = Some (ErrUnknownIndexColumn "age" "by_age").
Proof.
  apply (validateIndexes_first_unknown lower users_spec [by_name] [] by_age
           [ {| IndexColumn_Name := "id" |} ] [] {| IndexColumn_Name := "age" |});
    try reflexivity.
  - repeat constructor. exists col_name.
    split; [apply list_elem_of_In; simpl; auto|reflexivity].
  - repeat constructor. exists col_id.
    split; [apply list_elem_of_In; simpl; auto|reflexivity].
  - intros (c & Hc & Hname). apply list_elem_of_In in Hc.
    destruct Hc as [<-|[<-|[]]]; vm_compute in Hname; discriminate.
Defined.
End Runs.
